(** * transformimgs: the lane dispatcher and request negotiation of package [img]

    A shallow embedding of [img/queue.go] and [img/service.go] and the
    properties of the queue worker, the round-robin lane cursor and the
    request negotiation helpers.

    Conventions of the embedding.
    - A Go [string] is a sequence of bytes: Rocq's [string] (a list of
      [ascii]).
    - A Go [int] is a 64-bit two's complement integer: a [Z] with the
      wrap-around written out ([wrap64]).
    - A nullable pointer, function value, interface or [error] is an
      [option]; [None] is Go's [nil].  A Go [error] is represented by its
      message.
    - A Go map ([http.Header], [url.Values], [mux.Vars]) is a [gmap]; a
      lookup of an absent key yields the zero value.
    - [Log.Printf] calls only write to the log and are left out. *)

From Stdlib Require Import ZArith Ascii String DecimalString.
From stdpp Require Import base option list gmap strings.

Local Open Scope string_scope.
Local Open Scope Z_scope.

(** ** Go's [strings] package, as far as the service uses it *)

Module GoStrings.

(** A string from the numeric values of its bytes. *)
Definition of_bytes (l : list N) : string :=
  string_of_list_ascii (List.map ascii_of_N l).

(** [strings.HasPrefix(s, prefix)]. *)
Definition HasPrefix (s pre : string) : bool := String.prefix pre s.

(** [strings.Split(s, sep)] for a separator of one byte (the service only
    splits on [","]): all substrings between separators, in order; a
    string without separator yields the one-element slice [[s]]. *)
Fixpoint Split (s : string) (sep : ascii) : list string :=
  match s with
  | EmptyString => [EmptyString]
  | String c t =>
      if Ascii.eqb c sep then EmptyString :: Split t sep
      else match Split t sep with
           | [] => [String c EmptyString]
           | h :: r => String c h :: r
           end
  end.

(** [strings.Join(l, sep)] with a one-byte separator. *)
Fixpoint Join (l : list string) (sep : ascii) : string :=
  match l with
  | [] => EmptyString
  | [x] => x
  | x :: r => x ++ String sep (Join r sep)
  end.

(** Number of occurrences of a byte. *)
Fixpoint Count (s : string) (c : ascii) : nat :=
  match s with
  | EmptyString => 0%nat
  | String d t => ((if Ascii.eqb d c then 1 else 0) + Count t c)%nat
  end.

(** The UTF-8 encodings of the code points outside ASCII for which
    [unicode.IsSpace] holds: U+0085, U+00A0, U+1680, U+2000..U+200A,
    U+2028, U+2029, U+202F, U+205F, U+3000. *)
Definition unicodeSpaces : list string :=
  List.map of_bytes
    [ [0xC2; 0x85]; [0xC2; 0xA0]; [0xE1; 0x9A; 0x80];
      [0xE2; 0x80; 0x80]; [0xE2; 0x80; 0x81]; [0xE2; 0x80; 0x82];
      [0xE2; 0x80; 0x83]; [0xE2; 0x80; 0x84]; [0xE2; 0x80; 0x85];
      [0xE2; 0x80; 0x86]; [0xE2; 0x80; 0x87]; [0xE2; 0x80; 0x88];
      [0xE2; 0x80; 0x89]; [0xE2; 0x80; 0x8A]; [0xE2; 0x80; 0xA8];
      [0xE2; 0x80; 0xA9]; [0xE2; 0x80; 0xAF]; [0xE2; 0x81; 0x9F];
      [0xE3; 0x80; 0x80] ]%N.

(** All encodings of one white-space rune: the ASCII white space of
    [strings.asciiSpace] (tab, line feed, vertical tab, form feed, carriage
    return, space) and the ones above. *)
Definition spaces : list string :=
  List.map (fun n => of_bytes [n]) [9; 10; 11; 12; 13; 32]%N ++ unicodeSpaces.

(** The rest of [s] after the prefix [p], if [s] starts with [p]. *)
Fixpoint dropPrefix (p s : string) : option string :=
  match p, s with
  | EmptyString, _ => Some s
  | String a p', String b s' =>
      if Ascii.eqb a b then dropPrefix p' s' else None
  | String _ _, EmptyString => None
  end.

(** Strip one white-space rune from the front, if there is one. *)
Fixpoint stripSpace (pats : list string) (s : string) : option string :=
  match pats with
  | [] => None
  | p :: rest =>
      match dropPrefix p s with
      | Some r => Some r
      | None => stripSpace rest s
      end
  end.

Fixpoint trimLeftFuel (fuel : nat) (pats : list string) (s : string) : string :=
  match fuel with
  | O => s
  | S f => match stripSpace pats s with
           | Some rest => trimLeftFuel f pats rest
           | None => s
           end
  end.

(** [strings.TrimLeftFunc(s, unicode.IsSpace)]. *)
Definition TrimLeft (s : string) : string :=
  trimLeftFuel (String.length s) spaces s.

Definition rev_string (s : string) : string :=
  string_of_list_ascii (List.rev (list_ascii_of_string s)).

(** [strings.TrimRightFunc(s, unicode.IsSpace)]: the same from the back.
    The last rune of a string is a white-space rune exactly when the
    string ends with one of the encodings. *)
Definition TrimRight (s : string) : string :=
  rev_string (trimLeftFuel (String.length s) (List.map rev_string spaces)
                (rev_string s)).

(** [strings.TrimSpace(s)]: leading and trailing white space removed. *)
Definition TrimSpace (s : string) : string := TrimRight (TrimLeft s).

End GoStrings.

(** ** Go's [regexp] package, for the two size patterns *)

Module GoRegexp.

(** A character class: [\d] (in RE2 syntax the ASCII digits only) or a
    bracket expression listing its bytes. *)
Inductive class :=
| Digit
| OneOf (l : list ascii).

Definition in_class (k : class) (c : ascii) : bool :=
  match k with
  | Digit => let n := N_of_ascii c in ((48 <=? n) && (n <=? 57))%N
  | OneOf l => existsb (Ascii.eqb c) l
  end.

(** Regular expressions.  Every pattern of the service is anchored at
    both ends ([^...$], without the multi-line flag), so that
    [regexp.MatchString] holds exactly when the whole text is in the
    language of the expression between the anchors. *)
Inductive regex :=
| Eps
| Cls (k : class)
| Cat (r1 r2 : regex)
| Alt (r1 r2 : regex)
| Star (r : regex)
| Void.

(** [r?] *)
Definition Opt (r : regex) : regex := Alt r Eps.

Fixpoint nullable (r : regex) : bool :=
  match r with
  | Eps => true
  | Cls _ => false
  | Cat r1 r2 => nullable r1 && nullable r2
  | Alt r1 r2 => nullable r1 || nullable r2
  | Star _ => true
  | Void => false
  end.

(** Brzozowski derivative with respect to one byte. *)
Fixpoint deriv (c : ascii) (r : regex) : regex :=
  match r with
  | Eps => Void
  | Cls k => if in_class k c then Eps else Void
  | Cat r1 r2 =>
      if nullable r1 then Alt (Cat (deriv c r1) r2) (deriv c r2)
      else Cat (deriv c r1) r2
  | Alt r1 r2 => Alt (deriv c r1) (deriv c r2)
  | Star r1 => Cat (deriv c r1) (Star r1)
  | Void => Void
  end.

Fixpoint matches (r : regex) (s : list ascii) : bool :=
  match s with
  | [] => nullable r
  | c :: t => matches (deriv c r) t
  end.

(** [regexp.MatchString(pattern, s)] for an anchored pattern that
    compiles: the match flag; the error is [nil]. *)
Definition MatchString (pattern : regex) (s : string) : bool :=
  matches pattern (list_ascii_of_string s).

(** The language of an expression. *)
Inductive lang : regex -> list ascii -> Prop :=
| lang_eps : lang Eps []
| lang_cls k c : in_class k c = true -> lang (Cls k) [c]
| lang_cat r1 r2 s1 s2 : lang r1 s1 -> lang r2 s2 -> lang (Cat r1 r2) (s1 ++ s2)
| lang_alt_l r1 r2 s : lang r1 s -> lang (Alt r1 r2) s
| lang_alt_r r1 r2 s : lang r2 s -> lang (Alt r1 r2) s
| lang_star_nil r : lang (Star r) []
| lang_star_cons r s1 s2 :
  lang r s1 -> lang (Star r) s2 -> lang (Star r) (s1 ++ s2).

End GoRegexp.

(** ** Go's [net/http], [net/url] and [gorilla/mux], as far as the
    handlers use them *)

Module GoHTTP.

(** [m[k]] on a [map[string][]string]: the zero value of an absent key is
    the [nil] slice. *)
Definition values (m : gmap string (list string)) (k : string) : list string :=
  default [] (m !! k).

(** [Header.Add] / [Values.Add]: append a value to the key's list.  The
    keys used by the service are already in canonical form. *)
Definition Add (m : gmap string (list string)) (k v : string)
  : gmap string (list string) :=
  <[k := (values m k ++ [v])%list]> m.

(** [Header.Set]. *)
Definition Set_ (m : gmap string (list string)) (k v : string)
  : gmap string (list string) :=
  <[k := [v]]> m.

(** [Header.Get]: the first value of the key, or [""]. *)
Definition Get (m : gmap string (list string)) (k : string) : string :=
  match values m k with
  | [] => ""
  | v :: _ => v
  end.

(** A [url.URL], by the key/value pairs of its query string in the order
    in which they occur (what [url.ParseQuery] decodes). *)
Record URL := { QueryPairs : list (string * string) }.

(** [URL.Query()]: the pairs collected per key, values in order. *)
Definition Query (u : URL) : gmap string (list string) :=
  foldl (fun m kv => Add m kv.1 kv.2) ∅ (QueryPairs u).

(** The request's [context.Context], an opaque token. *)
Inductive Context := ctx (id : nat).

(** An [http.Request] with the route variables that [mux.Vars] returns
    for it. *)
Record Request := {
  Url : URL;
  Header : gmap string (list string);
  Vars : gmap string string;
  Ctx : Context
}.

(** The state behind an [http.ResponseWriter]: the header map, the status
    line once it is written, and the body written so far. *)
Record ResponseWriter := {
  Hdr : gmap string (list string);
  Status : option Z;
  Body : string
}.

Definition newResponse : ResponseWriter :=
  {| Hdr := ∅; Status := None; Body := "" |}.

Definition StatusOK : Z := 200.
Definition StatusBadRequest : Z := 400.
Definition StatusInternalServerError : Z := 500.

(** [w.Header().Add(k, v)]. *)
Definition HeaderAdd (k v : string) (w : ResponseWriter) : ResponseWriter :=
  {| Hdr := Add (Hdr w) k v; Status := Status w; Body := Body w |}.

(** [w.WriteHeader(code)]: only the first call counts. *)
Definition WriteHeader (code : Z) (w : ResponseWriter) : ResponseWriter :=
  match Status w with
  | Some _ => w
  | None => {| Hdr := Hdr w; Status := Some code; Body := Body w |}
  end.

(** [w.Write(data)]: writes the status line 200 first if none was
    written. *)
Definition Write (data : string) (w : ResponseWriter) : ResponseWriter :=
  let w' := WriteHeader StatusOK w in
  {| Hdr := Hdr w'; Status := Status w'; Body := Body w' ++ data |}.

Definition newline : string := String (ascii_of_N 10) EmptyString.

(** [http.Error(w, msg, code)]. *)
Definition Error (msg : string) (code : Z) (w : ResponseWriter) : ResponseWriter :=
  let w1 := {| Hdr := Set_ (Set_ (Hdr w) "Content-Type" "text/plain; charset=utf-8")
                        "X-Content-Type-Options" "nosniff";
               Status := Status w; Body := Body w |} in
  Write (msg ++ newline) (WriteHeader code w1).

End GoHTTP.

(** ** Package [img]: data model *)

Import GoHTTP.

(** [type Quality int] with the constants [DEFAULT = 1 + iota] and [LOW];
    the zero value 0 is neither. *)
Definition Quality : Type := Z.
Definition DEFAULT : Quality := 1.
Definition LOW : Quality := 2.

Record ResizeConfig := { Size : string }.

(** Modelled from the spec: the [Image] struct, declared in a file of the
    package that is not part of the sources at hand: an identifier, a byte
    payload and a MIME type.  The handlers read [Id], [Data] and
    [MimeType]. *)
Module Image.
Record t := mk { Id : string; Data : string; MimeType : string }.
End Image.

Module TransformationConfig.
Record t := mk {
  Src : option Image.t;
  SupportedFormats : list string;
  Quality : Quality;
  Config : option ResizeConfig
}.
End TransformationConfig.

(** [type Cmd]: a function from a pointer to a [TransformationConfig] to a
    pointer to an [Image] and an [error]. *)
Definition Cmd : Type :=
  option TransformationConfig.t -> option Image.t * option string.

(** An implementation of the [Processor] interface. *)
Record Processor := {
  Resize : Cmd;
  FitToSize : Cmd;
  Optimise : Cmd
}.

(** An implementation of the [Loader] interface. *)
Record Loader := {
  Load : string -> Context -> option Image.t * option string
}.

(** A [*Command] is an address in the store of commands: the index of the
    command in the store.  An address outside the store is a nil or
    dangling pointer. *)
Definition loc := nat.

Module Command.
(** [FinishedCond] records whether the condition variable (with its
    mutex) was created; [Resp] is the response writer of the handler that
    built the command and is kept in the handler's state. *)
Record t := mk {
  Transformation : option Cmd;
  Config : option TransformationConfig.t;
  Result : option Image.t;
  FinishedCond : bool;
  Finished : bool;
  Err : option string
}.

(** [op.Result, op.Err = ...] *)
Definition set_result (re : option Image.t * option string) (c : t) : t :=
  mk (Transformation c) (Config c) re.1 (FinishedCond c) (Finished c) re.2.

(** [op.Finished = b] *)
Definition set_finished (b : bool) (c : t) : t :=
  mk (Transformation c) (Config c) (Result c) (FinishedCond c) b (Err c).

(** [op.FinishedCond = sync.NewCond(...)] *)
Definition set_cond (c : t) : t :=
  mk (Transformation c) (Config c) (Result c) true (Finished c) (Err c).
End Command.

(** What can be observed of a run: the calls to the collaborators and the
    synchronisation steps on a command.  [EvLock], [EvSetFinished],
    [EvUnlock] and [EvSignal] are the steps of the lane worker, [EvAwait]
    is the return of the submitter's guarded wait. *)
Inductive event :=
| EvLoad (src : string)
| EvSend (lane : nat) (op : loc)
| EvCall (op : loc)
| EvLock (op : loc)
| EvSetFinished (op : loc)
| EvUnlock (op : loc)
| EvSignal (op : loc)
| EvAwait (op : loc)
| EvCallback (op : loc).

#[global] Instance event_eq_dec : EqDecision event.
Proof. solve_decision. Defined.

(** The result of running a piece of code: it returns; the running
    goroutine panics ([Panic]: inside an HTTP handler the panic is recovered
    by [net/http] and ends that request only); the process dies because a
    lane worker panicked ([Crash]); or the goroutine waits for ever
    ([Blocked]). *)
Inductive res (A : Type) :=
| Ret (a : A)
| Panic
| Crash
| Blocked.
Arguments Ret {A} a.
Arguments Panic {A}.
Arguments Crash {A}.
Arguments Blocked {A}.

(** Code that runs on a state [S]. *)
Definition M (S A : Type) : Type := S -> res A * S.

#[global] Instance M_ret {S} : MRet (M S) := fun A a s => (Ret a, s).

#[global] Instance M_bind {S} : MBind (M S) := fun A B f m s =>
  match m s with
  | (Ret a, s') => f a s'
  | (Panic, s') => (Panic, s')
  | (Crash, s') => (Crash, s')
  | (Blocked, s') => (Blocked, s')
  end.

Definition panic {S A} : M S A := fun s => (Panic, s).
Definition blocked {S A} : M S A := fun s => (Blocked, s).

(** Dereference of a pointer: a nil pointer panics. *)
Definition nonnil {S A} (o : option A) : M S A :=
  match o with
  | Some a => mret a
  | None => panic
  end.

(** The store of commands and the events so far. *)
Record world := { heap : list Command.t; trace : list event }.

Definition deref (op : loc) : M world Command.t :=
  fun s => nonnil (heap s !! op) s.

Definition store (op : loc) (c : Command.t) : M world unit :=
  fun s => (Ret tt, {| heap := <[op := c]> (heap s); trace := trace s |}).

Definition emit (e : event) : M world unit :=
  fun s => (Ret tt, {| heap := heap s; trace := (trace s ++ [e])%list |}).

(** [&Command{...}]: a new command at a fresh address. *)
Definition alloc (c : Command.t) : M world loc :=
  fun s => (Ret (length (heap s)),
            {| heap := (heap s ++ [c])%list; trace := trace s |}).

(** ** [queue.go] *)

Module Queue.

(** A [*Queue] is identified by its channel [ops]; channels are numbered
    in the order in which [NewQueue] makes them.  [NewQueue] also starts
    the worker [start] of the queue. *)
Record t := { ops : nat }.

Definition NewQueue (chan : nat) : t := {| ops := chan |}.

(** The body of the [for op := range q.ops] loop of [start], for the
    command received: a nil [op], a nil [Transformation] that has to be
    called and a nil [FinishedCond] make the worker panic. *)
Definition iteration (op : loc) : M world unit :=
  c ← deref op;
  match Command.Result c with
  | None =>
      f ← nonnil (Command.Transformation c);
      emit (EvCall op);;
      store op (Command.set_result (f (Command.Config c)) c)
  | Some _ => mret tt
  end;;
  c ← deref op;
  (if Command.FinishedCond c then mret tt else panic);;
  emit (EvLock op);;
  c ← deref op;
  store op (Command.set_finished true c);;
  emit (EvSetFinished op);;
  emit (EvUnlock op);;
  emit (EvSignal op).

(** [start]: the worker loop over the commands that arrive on [q.ops], in
    the order of arrival. *)
Fixpoint start (arrivals : list loc) : M world unit :=
  match arrivals with
  | [] => mret tt
  | op :: rest => iteration op;; start rest
  end.

End Queue.

(** ** [service.go] *)

(** Go's [int]: 64 bits, two's complement. *)
Definition wrap64 (z : Z) : Z := (z + 2 ^ 63) mod 2 ^ 64 - 2 ^ 63.

(** [strconv.Itoa] and the verb [%d] of [fmt.Sprintf]. *)
Definition Itoa (z : Z) : string :=
  DecimalString.NilZero.string_of_int (Z.to_int z).

(** The package variables that the handlers read. *)
Record Globals := {
  CacheTTL : Z;
  SaveDataEnabled : bool
}.

(** [var emptyGif = [...]byte{...}] *)
Definition emptyGif : list N :=
  [0x47; 0x49; 0x46; 0x38; 0x39; 0x61; 0x1; 0x0; 0x1; 0x0; 0x0; 0x0; 0x0;
   0x21; 0xf9; 0x4; 0x1; 0xa; 0x0; 0x1; 0x0; 0x2c; 0x0; 0x0; 0x0; 0x0; 0x1;
   0x0; 0x1; 0x0; 0x0; 0x2; 0x2; 0x4c; 0x1; 0x0; 0x3b]%N.

Module Service.
(** [Q] is a slice of pointers to queues; [currProc] is guarded by
    [currProcMux]: [getQueue] runs as one atomic step. *)
Record t := mk {
  Loader : option Loader;
  Processor : option Processor;
  Q : list (option Queue.t);
  currProc : Z
}.

Definition set_currProc (c : Z) (r : t) : t :=
  mk (Loader r) (Processor r) (Q r) c.
End Service.

(** [len(r.Q)] as an [int]. *)
Definition len {A} (l : list A) : Z := Z.of_nat (length l).

(** [NewService]: the error of a non-positive [procNum], or the service
    with [procNum] new queues and the cursor at 0. *)
Definition NewService (r : option Loader) (p : option Processor) (procNum : Z)
  : option Service.t * option string :=
  if procNum <=? 0 then
    (None, Some ("procNum must be positive, but got [" ++ Itoa procNum ++ "]"))
  else
    let n := Z.to_nat procNum in
    let q := foldl (fun q i => <[i := Some (Queue.NewQueue i)]> q)
               (replicate n None) (seq 0 n) in
    (Some (Service.mk r p q 0), None).

(** [getQueue]: the cursor is advanced and wrapped under the mutex, and the
    queue at the new cursor is returned; an index outside [r.Q] panics. *)
Definition getQueue (r : Service.t) : res (option Queue.t) * Service.t :=
  let c1 := wrap64 (Service.currProc r + 1) in
  let c2 := if c1 =? len (Service.Q r) then 0 else c1 in
  let procIdx := c2 in
  let r' := Service.set_currProc c2 r in
  if (0 <=? procIdx) && (procIdx <? len (Service.Q r)) then
    match Service.Q r !! Z.to_nat procIdx with
    | Some q => (Ret q, r')
    | None => (Panic, r')
    end
  else (Panic, r').

(** The state a handler runs on: the service (its cursor), the store of
    commands with the events so far, and the response writer of the
    request. *)
Record hstate := {
  srv : Service.t;
  wld : world;
  resp : ResponseWriter
}.

(** Code of a lane worker, run from the point of view of the process: a
    panic of the worker is not recovered. *)
Definition onWorker {A} (m : M world A) : M hstate A :=
  fun s =>
    let '(r, w') := m (wld s) in
    let s' := {| srv := srv s; wld := w'; resp := resp s |} in
    match r with
    | Panic => (Crash, s')
    | r => (r, s')
    end.

(** Code of the handler's goroutine on the store. *)
Definition onStore {A} (m : M world A) : M hstate A :=
  fun s =>
    let '(r, w') := m (wld s) in
    (r, {| srv := srv s; wld := w'; resp := resp s |}).

Definition onResp (f : ResponseWriter -> ResponseWriter) : M hstate unit :=
  fun s => (Ret tt, {| srv := srv s; wld := wld s; resp := f (resp s) |}).

Definition theService : M hstate Service.t := fun s => (Ret (srv s), s).

(** [queue.AddAndWait(op, callback)], seen from the submitting goroutine:
    the command is sent on the channel of the queue (a nil queue panics),
    the worker of the queue runs its iteration on it, the guarded wait
    returns once [op.Finished] holds, and the callback runs.  The
    interleavings of the steps of the two goroutines are the subject of
    the hand-over below ([hstep]). *)
Definition AddAndWait (q : option Queue.t) (op : loc) (callback : M hstate unit)
  : M hstate unit :=
  queue ← nonnil q;
  onStore (emit (EvSend (Queue.ops queue) op));;
  onWorker (Queue.iteration op);;
  c ← onStore (deref op);
  (if Command.FinishedCond c then mret tt else panic);;
  (if Command.Finished c then mret tt else blocked);;
  onStore (emit (EvAwait op));;
  onStore (emit (EvCallback op));;
  callback.

Section Handlers.

Variable G : Globals.

(** Adds Content-Length and Cache-Control headers. *)
Definition addHeaders (image : option Image.t) : M hstate unit :=
  img ← nonnil image;
  (if negb (String.length (Image.MimeType img) =? 0)%nat
   then onResp (HeaderAdd "Content-Type" (Image.MimeType img))
   else mret tt);;
  onResp (HeaderAdd "Content-Length"
            (Itoa (Z.of_nat (String.length (Image.Data img)))));;
  onResp (HeaderAdd "Cache-Control" ("public, max-age=" ++ Itoa (CacheTTL G))).

Definition getQueryParam (url : URL) (name : string) : string :=
  if (length (values (Query url) name) =? 1)%nat
  then default "" (values (Query url) name !! 0%nat)
  else "".

Definition getImgUrl (req : Request) : string :=
  let imgUrl := default "" (Vars req !! "imgUrl") in
  if (String.length imgUrl =? 0)%nat then ""
  else
    if GoStrings.HasPrefix imgUrl "//"
       && (length (values (Header req) "X-Forwarded-Proto") =? 1)%nat
    then default "" (values (Header req) "X-Forwarded-Proto" !! 0%nat)
         ++ ":" ++ imgUrl
    else imgUrl.

Definition getSupportedFormats (req : Request) : list string :=
  let acceptHeader := values (Header req) "Accept" in
  if (0 <? length acceptHeader)%nat then
    let accepts := GoStrings.Split (default "" (acceptHeader !! 0%nat)) "," in
    let trimmedAccepts := replicate (length accepts) "" in
    foldl (fun acc ia => <[ia.1 := GoStrings.TrimSpace ia.2]> acc)
      trimmedAccepts (imap pair accepts)
  else [].

Definition writeResult (op : loc) : M hstate unit :=
  c ← onStore (deref op);
  match Command.Err c with
  | Some e =>
      onResp (Error ("Error transforming image: '" ++ e ++ "'")
                StatusInternalServerError)
  | None =>
      addHeaders (Command.Result c);;
      img ← nonnil (Command.Result c);
      onResp (Write (Image.Data img))
  end.

Definition getQuality (req : Request) : Quality :=
  let quality := DEFAULT in
  if SaveDataEnabled G then
    let saveDataParam := getQueryParam (Url req) "save-data" in
    let saveDataHeader := Get (Header req) "Save-Data" in
    if String.eqb saveDataHeader "on" && negb (String.eqb saveDataParam "off")
    then LOW
    else quality
  else quality.

(** [r.getQueue()] on the handler's state. *)
Definition nextQueue : M hstate (option Queue.t) :=
  fun s =>
    let '(q, r') := getQueue (srv s) in
    (q, {| srv := r'; wld := wld s; resp := resp s |}).

(** The callback of [execOp] reads [op.Config.Src.Id] for the log line
    before it writes the result. *)
Definition execOp (op : loc) : M hstate unit :=
  c ← onStore (deref op);
  onStore (store op (Command.set_cond c));;
  queue ← nextQueue;
  AddAndWait queue op
    (c ← onStore (deref op);
     cfg ← nonnil (Command.Config c);
     _ ← nonnil (TransformationConfig.Src cfg);
     writeResult op).

(** [r.Loader.Load(src, ctx)]: a nil [Loader] panics. *)
Definition load (src : string) (c : Context)
  : M hstate (option Image.t * option string) :=
  r ← theService;
  l ← nonnil (Service.Loader r);
  onStore (emit (EvLoad src));;
  mret (Load l src c).

(** The part of [transformUrl] after the save-data check: the source is
    loaded and the command is built and executed. *)
Definition loadAndExec (req : Request) (imgUrl : string)
    (transformation : option Cmd) (config : option ResizeConfig)
  : M hstate unit :=
  let supportedFormats := getSupportedFormats req in
  '(srcImage, err) ← load imgUrl (Ctx req);
  match err with
  | Some e =>
      onResp (Error ("Error reading image: '" ++ e ++ "'")
                StatusInternalServerError)
  | None =>
      op ← onStore (alloc (Command.mk transformation
              (Some (TransformationConfig.mk srcImage supportedFormats
                       (getQuality req) config))
              None false false None));
      execOp op
  end.

Definition transformUrl (req : Request) (transformation : option Cmd)
    (config : option ResizeConfig) : M hstate unit :=
  let imgUrl := getImgUrl req in
  if (String.length imgUrl =? 0)%nat then
    onResp (Error "url param is required" StatusBadRequest)
  else
    if SaveDataEnabled G then
      onResp (HeaderAdd "Vary" "Accept, Save-Data");;
      let saveDataHeader := Get (Header req) "Save-Data" in
      let saveDataQueryParam := getQueryParam (Url req) "save-data" in
      if String.eqb saveDataHeader "on" && String.eqb saveDataQueryParam "hide"
      then onResp (Write (GoStrings.of_bytes emptyGif))
      else loadAndExec req imgUrl transformation config
    else
      onResp (HeaderAdd "Vary" "Accept");;
      loadAndExec req imgUrl transformation config.

(** The method value [r.Processor.m]: a nil [Processor] panics. *)
Definition method (m : Processor -> Cmd) : M hstate (option Cmd) :=
  r ← theService;
  p ← nonnil (Service.Processor r);
  mret (Some (m p)).

Import GoRegexp.

(** The pattern [^\d*[x]?\d*$] of [ResizeUrl]. *)
Definition sizeLoose : regex :=
  Cat (Star (Cls Digit)) (Cat (Opt (Cls (OneOf ["x"%char]))) (Star (Cls Digit))).

(** The pattern [^\d*[x]\d*$] of [FitToSizeUrl]. *)
Definition sizeStrict : regex :=
  Cat (Star (Cls Digit)) (Cat (Cls (OneOf ["x"%char])) (Star (Cls Digit))).

Definition OptimiseUrl (req : Request) : M hstate unit :=
  t ← method Optimise;
  transformUrl req t None.

Definition ResizeUrl (req : Request) : M hstate unit :=
  let size := getQueryParam (Url req) "size" in
  if (String.length size =? 0)%nat then
    onResp (Error "size param is required" StatusBadRequest)
  else if negb (GoRegexp.MatchString sizeLoose size) then
    onResp (Error "size param should be in format WxH" StatusBadRequest)
  else
    t ← method Resize;
    transformUrl req t (Some {| Size := size |}).

Definition FitToSizeUrl (req : Request) : M hstate unit :=
  let size := getQueryParam (Url req) "size" in
  if (String.length size =? 0)%nat then
    onResp (Error "size param is required" StatusBadRequest)
  else if negb (GoRegexp.MatchString sizeStrict size) then
    onResp (Error "size param should be in format WxH" StatusBadRequest)
  else
    t ← method FitToSize;
    transformUrl req t (Some {| Size := size |}).

Definition AsIs (req : Request) : M hstate unit :=
  let imgUrl := getImgUrl req in
  if (String.length imgUrl =? 0)%nat then
    onResp (Error "url param is required" StatusBadRequest)
  else
    '(result, err) ← load imgUrl (Ctx req);
    match err with
    | Some e =>
        onResp (Error ("Error reading image: '" ++ e ++ "'")
                  StatusInternalServerError)
    | None =>
        img ← nonnil result;
        (if (0 <? String.length (Image.MimeType img))%nat
         then onResp (HeaderAdd "Content-Type" (Image.MimeType img))
         else mret tt);;
        op ← onStore (alloc (Command.mk None
                (Some (TransformationConfig.mk
                         (Some (Image.mk imgUrl "" "")) [] 0 None))
                result false false None));
        execOp op
    end.

End Handlers.

(** ** [GetRouter]

    [mux.NewRouter().SkipClean(true)] with the four routes of the service.
    The router does not clean the path of the request; it tries the routes
    in the order in which they were added, and the first route whose
    template matches the path serves the request; when no route matches,
    the router answers with [http.NotFound].  The template
    [/img/{imgUrl:.*}/resize] matches a path as the anchored pattern made
    of [/img/], a group for [.*] and [/resize] does, in which [.] is any
    character but the line feed; the text of the group is the route
    variable [imgUrl]. *)

Module GoMux.

(** A route: the literal text of the template before and after the
    variable, the name of the variable, and the handler. *)
Record Route := {
  before : string;
  variable : string;
  after : string;
  handler : Request -> M hstate unit
}.

(** [.*] matches [v]: no character of [v] is a line feed. *)
Definition dotStar (v : string) : bool :=
  forallb (fun c => negb (Ascii.eqb c (ascii_of_N 10))) (list_ascii_of_string v).

(** The text of the group in [path], if the pattern of the route matches:
    [path] is [before], then the text of the group, then [after]. *)
Definition matchTemplate (r : Route) (path : string) : option string :=
  match GoStrings.dropPrefix (before r) path with
  | None => None
  | Some rest =>
      match GoStrings.dropPrefix (GoStrings.rev_string (after r))
              (GoStrings.rev_string rest) with
      | None => None
      | Some v => if dotStar v then Some (GoStrings.rev_string v) else None
      end
  end.

(** [Router.Match]: the first route that matches, with the value of its
    variable. *)
Fixpoint Match (routes : list Route) (path : string) : option (Route * string) :=
  match routes with
  | [] => None
  | r :: rest =>
      match matchTemplate r path with
      | Some v => Some (r, v)
      | None => Match rest path
      end
  end.

(** [Router.ServeHTTP] on a request with the path [path]: the handler of
    the route that matches runs on the request with the route variable
    set. *)
Definition ServeHTTP (routes : list Route) (path : string) (req : Request)
  : M hstate unit :=
  match Match routes path with
  | Some (r, v) =>
      handler r {| Url := Url req; Header := Header req;
                   Vars := {[ variable r := v ]}; Ctx := Ctx req |}
  | None => onResp (Error "404 page not found" 404)
  end.

End GoMux.

Definition GetRouter (G : Globals) : list GoMux.Route :=
  [ GoMux.Build_Route "/img/" "imgUrl" "/resize" (ResizeUrl G);
    GoMux.Build_Route "/img/" "imgUrl" "/fit" (FitToSizeUrl G);
    GoMux.Build_Route "/img/" "imgUrl" "/asis" (AsIs G);
    GoMux.Build_Route "/img/" "imgUrl" "/optimise" (OptimiseUrl G) ].

(** ** Concurrent requests

    Requests run concurrently: the handler of a request picks its lane
    ([getQueue], atomic under the mutex) at some point, and the worker of a
    lane runs its iteration on a command at some later point.  A schedule
    lists these steps in the order in which they happen. *)

Inductive step :=
| Submit (op : loc)
| Work (op : loc).

(** [execOp] up to the choice of the queue. *)
Definition assign (op : loc) : M hstate (option Queue.t) :=
  c ← onStore (deref op);
  onStore (store op (Command.set_cond c));;
  nextQueue.

(** The queues picked by the submissions of a schedule, in the order of
    submission, and the state after the schedule.  A request that panics
    before it picks a queue ends alone; a worker that panics ends the
    process. *)
Fixpoint run (sched : list step) (s : hstate) : list (option Queue.t) * hstate :=
  match sched with
  | [] => ([], s)
  | Submit op :: rest =>
      match assign op s with
      | (Ret q, s') => let '(qs, s'') := run rest s' in (q :: qs, s'')
      | (Crash, s') => ([], s')
      | (_, s') => run rest s'
      end
  | Work op :: rest =>
      match onWorker (Queue.iteration op) s with
      | (Crash, s') => ([], s')
      | (_, s') => run rest s'
      end
  end.

(** ** The hand-over of a command between submitter and worker

    [AddAndWait] and the body of the loop of [start] run concurrently on
    one command.  Their steps are interleaved here one statement at a time;
    the program points carry the line numbers of [queue.go]. *)

(** The submitter in [AddAndWait]: line 31 sends the command, line 34
    locks, line 35 tests [op.Finished], line 36 is [Wait] (which registers
    with the condition variable, unlocks, parks until it is notified and
    locks again), line 38 unlocks and line 40 runs the callback. *)
Inductive spoint :=
| S31 | S34 | S35 | S36add | S36unlock | S36park | S36lock | S38 | S40 | Send.

(** The worker in [start]: line 17 receives the command, lines 18-19 call
    the transformation if there is no result, line 21 locks, line 22 sets
    [op.Finished], line 23 unlocks, line 25 signals; [Wnext] is back at the
    head of the loop and [Wpanic] is the panic of a call of a nil
    function. *)
Inductive wpoint :=
| W17 | W18 | W21 | W22 | W23 | W25 | Wnext | Wpanic.

Inductive holder := Free | Submitter | Worker.

(** The shared state: who holds [op.FinishedCond.L], whether the submitter
    is registered with the condition variable and whether it has been
    notified, whether the transformation has been called, [op.Finished],
    and the number of calls of [Signal]. *)
Record hand := {
  sp : spoint;
  wp : wpoint;
  lock : holder;
  registered : bool;
  notified : bool;
  called : bool;
  finished : bool;
  signals : nat
}.

#[global] Instance spoint_eq_dec : EqDecision spoint.
Proof. solve_decision. Defined.
#[global] Instance wpoint_eq_dec : EqDecision wpoint.
Proof. solve_decision. Defined.
#[global] Instance holder_eq_dec : EqDecision holder.
Proof. solve_decision. Defined.
#[global] Instance hand_eq_dec : EqDecision hand.
Proof. solve_decision. Defined.

Definition hand0 : hand :=
  {| sp := S31; wp := W17; lock := Free; registered := false;
     notified := false; called := false; finished := false; signals := 0 |}.

(** The steps of the submitter that it takes alone. *)
Definition sstep (h : hand) : option hand :=
  let at_ p l r n := {| sp := p; wp := wp h; lock := l; registered := r;
                        notified := n; called := called h;
                        finished := finished h; signals := signals h |} in
  match sp h with
  | S31 => None
  | S34 | S36lock =>
      match lock h with
      | Free => Some (at_ S35 Submitter (registered h) (notified h))
      | _ => None
      end
  | S35 =>
      Some (at_ (if finished h then S38 else S36add) (lock h)
              (registered h) (notified h))
  | S36add => Some (at_ S36unlock (lock h) true (notified h))
  | S36unlock => Some (at_ S36park Free (registered h) (notified h))
  | S36park =>
      if notified h then Some (at_ S36lock (lock h) false false) else None
  | S38 => Some (at_ S40 Free (registered h) (notified h))
  | S40 => Some (at_ Send (lock h) (registered h) (notified h))
  | Send => None
  end.

(** The steps of the worker that it takes alone, on a command that has a
    result ([hasResult]) or a transformation ([hasTransformation]) when it
    arrives. *)
Definition wstep (hasResult hasTransformation : bool) (h : hand) : option hand :=
  let at_ p l n c f k := {| sp := sp h; wp := p; lock := l;
                            registered := registered h; notified := n;
                            called := c; finished := f; signals := k |} in
  match wp h with
  | W17 => None
  | W18 =>
      if hasResult then
        Some (at_ W21 (lock h) (notified h) (called h) (finished h) (signals h))
      else if hasTransformation then
        Some (at_ W21 (lock h) (notified h) true (finished h) (signals h))
      else
        Some (at_ Wpanic (lock h) (notified h) (called h) (finished h) (signals h))
  | W21 =>
      match lock h with
      | Free => Some (at_ W22 Worker (notified h) (called h) (finished h) (signals h))
      | _ => None
      end
  | W22 => Some (at_ W23 (lock h) (notified h) (called h) true (signals h))
  | W23 => Some (at_ W25 Free (notified h) (called h) (finished h) (signals h))
  | W25 =>
      Some (at_ Wnext (lock h) (notified h || registered h) (called h)
              (finished h) (S (signals h)))
  | Wnext => None
  | Wpanic => None
  end.

(** The send on the unbuffered channel and the receive happen together. *)
Definition rendezvous (h : hand) : option hand :=
  match sp h, wp h with
  | S31, W17 =>
      Some {| sp := S34; wp := W18; lock := lock h; registered := registered h;
              notified := notified h; called := called h;
              finished := finished h; signals := signals h |}
  | _, _ => None
  end.

(** All steps that can be taken next.  After a panic of the worker the
    process is gone and nothing is taken. *)
Definition nexts (hasResult hasTransformation : bool) (h : hand) : list hand :=
  match wp h with
  | Wpanic => []
  | _ => omap id [rendezvous h; sstep h; wstep hasResult hasTransformation h]
  end.

Definition hstep (hasResult hasTransformation : bool) (h h' : hand) : Prop :=
  h' ∈ nexts hasResult hasTransformation h.

(** ** The negotiation rules in the words of the specification *)

Definition ResolveQuality (saveDataFeatureEnabled : bool)
    (saveDataHeaderValue saveDataQueryOverride : string) : Quality :=
  if saveDataFeatureEnabled && String.eqb saveDataHeaderValue "on"
     && negb (String.eqb saveDataQueryOverride "off")
  then LOW else DEFAULT.

Definition ResolveHideOnSaveData (saveDataFeatureEnabled : bool)
    (saveDataHeaderValue saveDataQueryOverride : string) : bool :=
  saveDataFeatureEnabled && String.eqb saveDataHeaderValue "on"
  && String.eqb saveDataQueryOverride "hide".

(** * Notions used in the statements *)

(** The values of the pairs of the query string with the key [name], in
    the order in which they occur. *)
Definition occurrences (u : URL) (name : string) : list string :=
  (filter (fun kv => kv.1 = name) (QueryPairs u)).*2.

(** The request without the pairs of one query parameter. *)
Definition dropParam (name : string) (req : Request) : Request :=
  {| Url := {| QueryPairs :=
                 filter (fun kv => kv.1 ≠ name) (QueryPairs (Url req)) |};
     Header := Header req;
     Vars := Vars req;
     Ctx := Ctx req |}.

(** A request with two values of the size parameter. *)
Definition twoSizes : Request :=
  {| Url := {| QueryPairs := [("size", "50x50"); ("size", "60x60")] |};
     Header := ∅; Vars := {[ "imgUrl" := "http://site/a.png" ]}; Ctx := ctx 0 |}.

(** A request that carries the given Save-Data header value and save-data
    query value (none when empty). *)
Definition saveDataRequest (header override : string) : Request :=
  {| Url := {| QueryPairs :=
                 if String.eqb override "" then [] else [("save-data", override)] |};
     Header := if String.eqb header "" then ∅ else {[ "Save-Data" := [header] ]};
     Vars := {[ "imgUrl" := "http://site/a.png" ]};
     Ctx := ctx 0 |}.

(** A string of ASCII digits. *)
Definition digits (s : string) : bool :=
  forallb (GoRegexp.in_class GoRegexp.Digit) (list_ascii_of_string s).

(** The handler answered with [http.Error] and did nothing else: no source
    was loaded, no command was built and no lane was picked. *)
Definition answeredError (code : Z) (s : hstate) (out : res unit * hstate) : Prop :=
  exists msg,
    out = (Ret tt, {| srv := srv s; wld := wld s;
                      resp := Error msg code (resp s) |}).

(** The synchronisation steps of the worker on a command. *)
Definition completion (op : loc) : list event :=
  [EvLock op; EvSetFinished op; EvUnlock op; EvSignal op].

(** One iteration of the worker on the command [c] at address [op]:
    whether the worker returns or panics, the command afterwards and the
    events of the iteration. *)
Definition iterated (op : loc) (c : Command.t)
  : res unit * Command.t * list event :=
  match Command.Result c with
  | Some _ =>
      if Command.FinishedCond c
      then (Ret tt, Command.set_finished true c, completion op)
      else (Panic, c, [])
  | None =>
      match Command.Transformation c with
      | None => (Panic, c, [])
      | Some f =>
          let c1 := Command.set_result (f (Command.Config c)) c in
          if Command.FinishedCond c
          then (Ret tt, Command.set_finished true c1, EvCall op :: completion op)
          else (Panic, c1, [EvCall op])
      end
  end.

(** The commands on which the worker does not panic. *)
Definition submittable (c : Command.t) : Prop :=
  is_Some (Command.Transformation c) \/ is_Some (Command.Result c).

(** [execOp] up to the callback, for a command on which the worker does not
    panic and a service whose cursor leads to a queue. *)
Definition afterWait (q : Queue.t) (r' : Service.t) (op : loc) (c : Command.t)
    (s : hstate) : hstate :=
  {| srv := r';
     wld := {| heap := <[op := (iterated op (Command.set_cond c)).1.2]>
                         (heap (wld s));
               trace := (trace (wld s) ++ [EvSend (Queue.ops q) op]
                         ++ (iterated op (Command.set_cond c)).2
                         ++ [EvAwait op; EvCallback op])%list |};
     resp := resp s |}.

(** The services that [NewService] builds and [getQueue] maintains: [n]
    queues, the queue at index [i] being the [i]-th one made, and the
    cursor inside the slice. *)
Record lanes (n : Z) (r : Service.t) : Prop := {
  lanes_pos : 1 <= n < 2 ^ 63;
  lanes_len : len (Service.Q r) = n;
  lanes_queue : forall i : nat, (i < length (Service.Q r))%nat ->
                  Service.Q r !! i = Some (Some (Queue.NewQueue i));
  lanes_cursor : 0 <= Service.currProc r < n
}.

(** A request for a scheme-relative locator behind a proxy that forwards
    the protocol. *)
Definition relativeRequest : Request :=
  {| Url := {| QueryPairs := [] |};
     Header := {[ "X-Forwarded-Proto" := ["https"] ]};
     Vars := {[ "imgUrl" := "//site/a.png" ]};
     Ctx := ctx 0 |}.

(** A request with an empty locator that asks to hide the image. *)
Definition noLocatorRequest : Request :=
  {| Url := {| QueryPairs := [("save-data", "hide")] |};
     Header := {[ "Save-Data" := ["on"] ]};
     Vars := {[ "imgUrl" := "" ]};
     Ctx := ctx 0 |}.

(** A relation on the store and the events, as a relation on the state of
    a handler. *)
Definition onWld (R : relation world) : relation hstate :=
  fun s s' => R (wld s) (wld s').

(** The events so far stay, new events are appended. *)
Definition extends : relation world :=
  fun w w' => trace w `prefix_of` trace w'.

(** The state after a call of the loader. *)
Definition loaded (src : string) (s : hstate) : hstate :=
  {| srv := srv s;
     wld := {| heap := heap (wld s);
               trace := (trace (wld s) ++ [EvLoad src])%list |};
     resp := resp s |}.

(** The handler wrote the placeholder image after the Vary header and did
    nothing else: no source was loaded, no command was built and no lane
    was picked. *)
Definition hideFired (s : hstate) (out : res unit * hstate) : Prop :=
  out = (Ret tt,
         {| srv := srv s; wld := wld s;
            resp := Write (GoStrings.of_bytes emptyGif)
                      (HeaderAdd "Vary" "Accept, Save-Data" (resp s)) |}).

(** What a handler run submits: the process survives, and every command
    sent to a lane during the run was built during the run and satisfies
    [P] when the handler ends. *)
Definition submits (P : Command.t -> Prop) (s : hstate)
    (out : res unit * hstate) : Prop :=
  out.1 ≠ Crash
  /\ forall lane op,
       EvSend lane op ∈ drop (length (trace (wld s))) (trace (wld out.2)) ->
       (length (heap (wld s)) <= op)%nat
       /\ exists c, heap (wld out.2) !! op = Some c /\ P c.

(** The states found from [hs] in [n] rounds of steps. *)
Fixpoint explore (hasResult hasTransformation : bool) (n : nat) (hs : list hand)
  : list hand :=
  match n with
  | O => hs
  | S n =>
      explore hasResult hasTransformation n
        (remove_dups (hs ++ flat_map (nexts hasResult hasTransformation) hs))
  end.

Definition explored (hasResult hasTransformation : bool) : list hand :=
  explore hasResult hasTransformation 24 [hand0].





(** Every step from a state of [hs] leads into [hs]. *)
Definition closedUnder (r t : bool) (hs : list hand) : bool :=
  forallb (fun h => forallb (fun h' => bool_decide (h' ∈ hs)) (nexts r t h)) hs.

(** What the callback of [execOp] does to the response writer [w] for the
    command [c] as the worker left it: whether the callback returns, and
    the writer afterwards. *)
Definition rendered (G : Globals) (c : Command.t) (w : ResponseWriter)
  : res unit * ResponseWriter :=
  match Command.Config c with
  | None => (Panic, w)
  | Some cfg =>
      match TransformationConfig.Src cfg with
      | None => (Panic, w)
      | Some _ =>
          match Command.Err c with
          | Some e =>
              (Ret tt, Error ("Error transforming image: '" ++ e ++ "'")
                         StatusInternalServerError w)
          | None =>
              match Command.Result c with
              | None => (Panic, w)
              | Some img =>
                  let w1 := if (String.length (Image.MimeType img) =? 0)%nat
                            then w
                            else HeaderAdd "Content-Type" (Image.MimeType img) w in
                  (Ret tt,
                   Write (Image.Data img)
                     (HeaderAdd "Cache-Control"
                        ("public, max-age=" ++ Itoa (CacheTTL G))
                        (HeaderAdd "Content-Length"
                           (Itoa (Z.of_nat (String.length (Image.Data img))))
                           w1)))
              end
          end
      end
  end.

(** The command that [execOp] leaves in the store for the command [c0]
    that the handler built. *)
Definition executed (c0 : Command.t) : Command.t :=
  (iterated 0%nat (Command.set_cond c0)).1.2.

(** The state after [execOp] on a new command, up to the response. *)
Definition submitted (n : Z) (c0 : Command.t) (s : hstate) (w : ResponseWriter)
  : hstate :=
  let op := length (heap (wld s)) in
  let lane := (Service.currProc (srv s) + 1) mod n in
  {| srv := Service.set_currProc lane (srv s);
     wld := {| heap := (heap (wld s) ++ [executed c0])%list;
               trace := (trace (wld s) ++ [EvSend (Z.to_nat lane) op]
                         ++ (iterated op (Command.set_cond c0)).2
                         ++ [EvAwait op; EvCallback op])%list |};
     resp := w |}.

(** The value of the Vary header that [transformUrl] adds. *)
Definition vary (G : Globals) : string :=
  if SaveDataEnabled G then "Accept, Save-Data" else "Accept".

(** The test of [transformUrl] for the placeholder image. *)
Definition hidden (G : Globals) (req : Request) : bool :=
  SaveDataEnabled G
  && String.eqb (Get (Header req) "Save-Data") "on"
  && String.eqb (getQueryParam (Url req) "save-data") "hide".

(** The state [s] with the response writer [w]. *)
Definition withResp (w : ResponseWriter) (s : hstate) : hstate :=
  {| srv := srv s; wld := wld s; resp := w |}.

(** The configuration that [transformUrl] builds for a source image. *)
Definition negotiated (G : Globals) (req : Request) (src : option Image.t)
    (cfg : option ResizeConfig) : TransformationConfig.t :=
  TransformationConfig.mk src (getSupportedFormats req) (getQuality G req) cfg.

(** The command that [transformUrl] builds. *)
Definition built (G : Globals) (req : Request) (t : option Cmd)
    (src : option Image.t) (cfg : option ResizeConfig) : Command.t :=
  Command.mk t (Some (negotiated G req src cfg)) None false false None.

(** The command that [AsIs] builds for the image [result] of the loader. *)
Definition passed (imgUrl : string) (result : option Image.t) : Command.t :=
  Command.mk None
    (Some (TransformationConfig.mk (Some (Image.mk imgUrl "" "")) [] 0 None))
    result false false None.


(** The commands that a handler sends for the method [m] of the processor
    and the resize configuration [config]: the transformation is the
    method, the configuration is the one negotiated for the request, and
    the result and the error are what the method returns on it. *)
Definition sent (G : Globals) (req : Request) (s : hstate)
    (m : Processor -> Cmd) (config : option ResizeConfig) (c : Command.t) : Prop :=
  exists p src,
    Service.Processor (srv s) = Some p
    /\ let cfg := TransformationConfig.mk src (getSupportedFormats req)
                    (getQuality G req) config in
       c = Command.mk (Some (m p)) (Some cfg) (m p (Some cfg)).1 true true
             (m p (Some cfg)).2.

(** A relation on the response writer, as a relation on the state of a
    handler. *)
Definition onResponse (R : relation ResponseWriter) : relation hstate :=
  fun s s' => R (resp s) (resp s').

(** The values of the header [k] are as before. *)
Definition sameHeader (k : string) : relation ResponseWriter :=
  fun w w' => values (Hdr w') k = values (Hdr w) k.

(** The events of the worker on the command at [op] in the store [w]. *)
Definition block (w : world) (op : loc) : list event :=
  match heap w !! op with
  | Some c =>
      (match Command.Result c with
       | None => [EvCall op]
       | Some _ => []
       end ++ completion op)%list
  | None => []
  end.

(** The request that the handler of a route gets. *)
Definition withVar (v : string) (req : Request) : Request :=
  {| Url := Url req; Header := Header req; Vars := {[ "imgUrl" := v ]};
     Ctx := Ctx req |}.


(** A relation on the service, as a relation on the state of a handler. *)
Definition onService (R : relation Service.t) : relation hstate :=
  fun s s' => R (srv s) (srv s').

(** The service keeps its loader, its processor and its queues, and a
    service of [n] lanes stays one. *)
Definition sameLanes (n : Z) : relation Service.t :=
  fun r r' =>
    Service.Loader r' = Service.Loader r
    /\ Service.Processor r' = Service.Processor r
    /\ Service.Q r' = Service.Q r
    /\ (lanes n r -> lanes n r').

(** An image, a transformation that fails and one that succeeds. *)
Definition exImage : Image.t := Image.mk "http://site/a.png" "bytes" "image/png".

Definition failingCmd : Cmd := fun _ => (None, Some "exit status 1").

Definition okCmd : Cmd := fun _ => (Some exImage, None).

(** A command as [execOp] hands it to a lane. *)
Definition exCommand (t : option Cmd) (r : option Image.t) : Command.t :=
  Command.mk t None r true false None.

(** A store with a failing command, a succeeding command and a
    pass-through command. *)
Definition exWorld : world :=
  {| heap := [exCommand (Some failingCmd) None; exCommand (Some okCmd) None;
              exCommand None (Some exImage)];
     trace := [] |}.

(** The service that [NewService] builds for three lanes. *)
Definition threeLanes : Service.t :=
  Service.mk None None
    [Some (Queue.NewQueue 0); Some (Queue.NewQueue 1); Some (Queue.NewQueue 2)] 0.

(** A handler state on that service and store. *)
Definition exState : hstate :=
  {| srv := threeLanes; wld := exWorld; resp := newResponse |}.

(** The default settings, with a cache time of one hour. *)
Definition exGlobals : Globals := {| CacheTTL := 3600; SaveDataEnabled := true |}.

(** A request with an Accept header of three entries. *)
Definition acceptRequest : Request :=
  {| Url := {| QueryPairs := [("size", "50x")] |};
     Header := {[ "Accept" := ["image/avif, image/webp ,*/*"] ]};
     Vars := {[ "imgUrl" := "http://site/a.png" ]};
     Ctx := ctx 0 |}.

(** A loader that knows one image, returns nothing at all for one locator
    and fails for the others. *)
Definition exLoader : Loader :=
  {| Load := fun src _ =>
       if String.eqb src "http://site/a.png" then (Some exImage, None)
       else if String.eqb src "http://site/nil" then (None, None)
       else (None, Some "not found") |}.

(** A transformation that returns neither an image nor an error. *)
Definition nilCmd : Cmd := fun _ => (None, None).

Definition exProcessor : Processor :=
  {| Resize := okCmd; FitToSize := failingCmd; Optimise := nilCmd |}.

(** The service of three lanes with the loader and the processor. *)
Definition loadedService : Service.t :=
  Service.mk (Some exLoader) (Some exProcessor)
    [Some (Queue.NewQueue 0); Some (Queue.NewQueue 1); Some (Queue.NewQueue 2)] 0.

Definition loadedState : hstate :=
  {| srv := loadedService; wld := exWorld; resp := newResponse |}.

(** Later on the same service: the cursor has moved and the store is
    another one. *)
Definition laterState : hstate :=
  {| srv := Service.set_currProc 2 loadedService;
     wld := {| heap := []; trace := [EvLoad "http://site/b.png"] |};
     resp := newResponse |}.

(** A request for a locator that the loader does not know, and one for the
    locator for which it returns nothing. *)
Definition locatorRequest (locator : string) : Request :=
  {| Url := {| QueryPairs := [] |}; Header := ∅;
     Vars := {[ "imgUrl" := locator ]}; Ctx := ctx 0 |}.

(** A lane with a command that has neither transformation nor result
    between two commands that can run. *)
Definition nilWorld : world :=
  {| heap := [exCommand (Some okCmd) None; exCommand None None;
              exCommand (Some okCmd) None];
     trace := [] |}.

(** The code does not end the process. *)
Definition nocrash {S A} (m : M S A) : Prop := forall s, (m s).1 ≠ Crash.

(** The state after the code is related to the state before. *)
Definition keeps {S} (R : relation S) {A} (m : M S A) : Prop :=
  forall s, R s (m s).2.

(** A string made of white-space runes only. *)
Inductive runOf (pats : list string) : string -> Prop :=
| runOf_nil : runOf pats ""
| runOf_cons p l : p ∈ pats -> runOf pats l -> runOf pats (p ++ l).

(** [s] starts with a white-space rune. *)
Definition leadingSpace (s : string) : Prop :=
  exists p r, p ∈ GoStrings.spaces /\ s = p ++ r.

(** [s] ends with a white-space rune. *)
Definition trailingSpace (s : string) : Prop :=
  exists p r, p ∈ GoStrings.spaces /\ s = r ++ p.

(** * Properties *)

#[local] Set Warnings "-clear-no-such-hyp".

(** ** Query parameters *)

Lemma values_Add (m : gmap string (list string)) k v name :
  values (Add m k v) name =
  if decide (k = name) then (values m name ++ [v])%list else values m name.
Proof.
  unfold values, Add. case_decide as Hk.
  - subst. by rewrite lookup_insert_eq.
  - by rewrite lookup_insert_ne.
Qed.

Lemma values_foldl_Add (l : list (string * string)) m name :
  values (foldl (fun m kv => Add m kv.1 kv.2) m l) name =
  (values m name ++ (filter (fun kv => kv.1 = name) l).*2)%list.
Proof.
  revert m. induction l as [|[k v] l IH]; intros m; simpl.
  - by rewrite app_nil_r.
  - rewrite IH, values_Add. rewrite filter_cons. simpl.
    case_decide; simpl; [by rewrite <- app_assoc | done].
Qed.

Lemma values_Query u name : values (Query u) name = occurrences u name.
Proof.
  unfold Query, occurrences. rewrite values_foldl_Add.
  unfold values at 1. by rewrite lookup_empty.
Qed.

Lemma getQueryParam_occurrences u name :
  getQueryParam u name =
  match occurrences u name with
  | [v] => v
  | _ => ""
  end.
Proof.
  unfold getQueryParam. rewrite values_Query.
  destruct (occurrences u name) as [|v [|v' l]]; done.
Qed.

Lemma occurrences_dropParam name req n' :
  occurrences (Url (dropParam name req)) n' =
  if decide (n' = name) then [] else occurrences (Url req) n'.
Proof.
  unfold occurrences, dropParam; simpl.
  rewrite list_filter_filter.
  case_decide as Hn.
  - subst n'. induction (QueryPairs (Url req)) as [|kv l IH]; [done|].
    rewrite filter_cons. destruct (decide _) as [[? ?]|]; done.
  - f_equal. apply list_filter_iff. intros kv. naive_solver.
Qed.

Lemma getQueryParam_dropParam name req n' :
  length (occurrences (Url req) name) ≠ 1%nat ->
  getQueryParam (Url (dropParam name req)) n' = getQueryParam (Url req) n'.
Proof.
  intros Hn. rewrite !getQueryParam_occurrences, occurrences_dropParam.
  case_decide as Heq; [subst n'|done].
  destruct (occurrences (Url req) name) as [|v [|v' l]]; done.
Qed.

(** C9. [getQueryParam] returns the value of a query parameter when the
    parameter occurs exactly once among the pairs of the query string, and
    the empty string when it occurs zero times or more than once; a request
    in which a parameter does not occur exactly once is handled as the
    request without that parameter. *)
Theorem getQueryParam_exactly_once (u : URL) (name : string) :
  (forall v, occurrences u name = [v] -> getQueryParam u name = v)
  /\ (length (occurrences u name) ≠ 1%nat -> getQueryParam u name = "")
  /\ (forall G req s,
        Url req = u ->
        length (occurrences u name) ≠ 1%nat ->
        ResizeUrl G req s = ResizeUrl G (dropParam name req) s
        /\ FitToSizeUrl G req s = FitToSizeUrl G (dropParam name req) s
        /\ OptimiseUrl G req s = OptimiseUrl G (dropParam name req) s).
Proof.
  split; [|split].
  - intros v Hv. by rewrite getQueryParam_occurrences, Hv.
  - intros Hn. rewrite getQueryParam_occurrences.
    destruct (occurrences u name) as [|v [|v' l]]; done.
  - intros G req s <- Hn.
    pose proof (getQueryParam_dropParam name req) as H.
    unfold ResizeUrl, FitToSizeUrl, OptimiseUrl, transformUrl, loadAndExec,
      getQuality.
    rewrite !(H _ Hn). done.
Qed.

(** C9 on a query with one size and on a query with two sizes. *)
Lemma getQueryParam_exactly_once_witness :
  getQueryParam {| QueryPairs := [("size", "50x50")] |} "size" = "50x50"
  /\ getQueryParam (Url twoSizes) "size" = ""
  /\ getQueryParam (Url twoSizes) "save-data" = "".
Proof.
  split; [|split].
  - apply (proj1 (getQueryParam_exactly_once
                    {| QueryPairs := [("size", "50x50")] |} "size")).
    reflexivity.
  - apply (proj1 (proj2 (getQueryParam_exactly_once (Url twoSizes) "size"))).
    vm_compute. lia.
  - apply (proj1 (proj2 (getQueryParam_exactly_once (Url twoSizes) "save-data"))).
    vm_compute. lia.
Defined.

(** ** Quality *)

(** C4. The quality is [LOW] exactly when the save-data feature is enabled,
    the Save-Data header is ["on"] and the save-data query value is not
    ["off"], and [DEFAULT] otherwise. *)
Theorem getQuality_low_iff (G : Globals) (req : Request) :
  let enabled := SaveDataEnabled G in
  let header := Get (Header req) "Save-Data" in
  let override := getQueryParam (Url req) "save-data" in
  (getQuality G req = LOW <->
   enabled = true /\ header = "on" /\ override ≠ "off")
  /\ (getQuality G req = DEFAULT <->
      ~ (enabled = true /\ header = "on" /\ override ≠ "off"))
  /\ getQuality G req = ResolveQuality enabled header override
  /\ (forall ttl,
        let on := {| CacheTTL := ttl; SaveDataEnabled := true |} in
        let off := {| CacheTTL := ttl; SaveDataEnabled := false |} in
        getQuality on (saveDataRequest "on" "") = LOW
        /\ getQuality on (saveDataRequest "on" "off") = DEFAULT
        /\ getQuality off (saveDataRequest "on" "") = DEFAULT
        /\ getQuality on (saveDataRequest "" "") = DEFAULT).
Proof.
  intros enabled header override.
  assert (Hq : getQuality G req = ResolveQuality enabled header override).
  { unfold getQuality, ResolveQuality. fold enabled header override.
    destruct enabled; simpl; [|done].
    by destruct (String.eqb header "on"), (String.eqb override "off"). }
  rewrite Hq. unfold ResolveQuality, LOW, DEFAULT.
  destruct enabled; simpl.
  - destruct (String.eqb_spec header "on") as [->|Hh];
      destruct (String.eqb_spec override "off") as [->|Ho]; simpl;
      (split; [|split; [|split]]); try done; try naive_solver.
  - (split; [|split; [|split]]); try done; naive_solver.
Qed.

(** ** Regular expressions *)

Section Regexp.
Import GoRegexp.

Local Ltac invert H := inversion H; subst; clear H.

Lemma nullable_lang r : nullable r = true <-> lang r [].
Proof.
  induction r; simpl; split; intros H;
    try done; try (by constructor); try (by inversion H).
  - apply andb_true_iff in H as [H1 H2].
    apply (lang_cat _ _ [] []); tauto.
  - invert H.
    match goal with E : (_ ++ _)%list = [] |- _ =>
      apply app_eq_nil in E as [-> ->] end.
    apply andb_true_iff. tauto.
  - apply orb_true_iff in H as [H|H]; [apply lang_alt_l|apply lang_alt_r]; tauto.
  - apply orb_true_iff. invert H; tauto.
Qed.

(** A non-empty word of a starred language starts with a non-empty word
    of the language. *)
Lemma lang_star_uncons r c s :
  lang (Star r) (c :: s) ->
  exists s1 s2, s = (s1 ++ s2)%list /\ lang r (c :: s1) /\ lang (Star r) s2.
Proof.
  intros H. remember (Star r) as r' eqn:Hr. remember (c :: s) as w eqn:Hw.
  revert Hr Hw. induction H as [| | | | | |r0 s1 s2 H1 _ H2 IH2]; try done.
  intros [= ->] Hw. destruct s1 as [|c1 s1]; simpl in Hw.
  - by apply IH2.
  - injection Hw as -> <-. eauto.
Qed.

Lemma lang_cat_cons r1 r2 c s :
  lang (Cat r1 r2) (c :: s) ->
  (lang r1 [] /\ lang r2 (c :: s))
  \/ exists s1 s2, s = (s1 ++ s2)%list /\ lang r1 (c :: s1) /\ lang r2 s2.
Proof.
  intros H. invert H.
  match goal with E : (?s1 ++ ?s2)%list = _ |- _ =>
    destruct s1 as [|c1 s1]; simpl in E; [subst s2|injection E as -> <-] end.
  - by left.
  - right. eauto.
Qed.

Lemma deriv_lang c r s : lang (deriv c r) s <-> lang r (c :: s).
Proof.
  revert s. induction r as [|k|r1 IH1 r2 IH2|r1 IH1 r2 IH2|r IH|]; intros s; simpl.
  - split; intros H; inversion H.
  - destruct (in_class k c) eqn:Hk; split; intros H; invert H.
    + by constructor.
    + constructor.
    + congruence.
  - split.
    + intros H. destruct (nullable r1) eqn:Hn.
      * invert H.
        -- match goal with H' : lang (Cat _ _) _ |- _ => invert H' end.
           match goal with H1 : lang (deriv c r1) ?s1 |- _ =>
             apply IH1 in H1; by apply (lang_cat _ _ (c :: s1)) end.
        -- apply nullable_lang in Hn.
           apply (lang_cat _ _ [] (c :: s)); [done|by apply IH2].
      * invert H.
        match goal with H1 : lang (deriv c r1) ?s1 |- _ =>
          apply IH1 in H1; by apply (lang_cat _ _ (c :: s1)) end.
    + intros H. apply lang_cat_cons in H as [[H1 H2]|(s1 & s2 & -> & H1 & H2)].
      * apply nullable_lang in H1. rewrite H1.
        apply lang_alt_r. by apply IH2.
      * apply IH1 in H1.
        destruct (nullable r1); [apply lang_alt_l|]; by constructor.
  - split; intros H; invert H;
      [apply lang_alt_l|apply lang_alt_r|apply lang_alt_l|apply lang_alt_r];
      by (apply IH1 || apply IH2).
  - split.
    + intros H. invert H.
      match goal with H1 : lang (deriv c r) ?s1 |- _ =>
        apply IH in H1; by apply (lang_star_cons _ (c :: s1)) end.
    + intros H. apply lang_star_uncons in H as (s1 & s2 & -> & H1 & H2).
      constructor; [by apply IH|done].
  - split; intros H; inversion H.
Qed.

(** The matcher decides the language. *)
Lemma matches_lang r s : matches r s = true <-> lang r s.
Proof.
  revert r. induction s as [|c s IH]; intros r; simpl.
  - apply nullable_lang.
  - rewrite IH. apply deriv_lang.
Qed.

Lemma lang_star_class k s :
  lang (Star (Cls k)) s <-> Forall (fun c => in_class k c = true) s.
Proof.
  split.
  - intros H. remember (Star (Cls k)) as r eqn:Hr. revert Hr.
    induction H as [| | | | | |r0 s1 s2 H1 _ H2 IH2]; try done.
    intros [= ->]. invert H1. constructor; auto.
  - induction 1 as [|c s Hc _ IH]; [constructor|].
    apply (lang_star_cons _ [c] s); [by constructor|done].
Qed.

End Regexp.

(** ** Strings as lists of bytes *)

Lemma list_ascii_of_string_app (a b : string) :
  list_ascii_of_string (a ++ b) =
  (list_ascii_of_string a ++ list_ascii_of_string b)%list.
Proof. induction a as [|c a IH]; simpl; [done|by rewrite IH]. Qed.

Lemma string_of_list_ascii_app (a b : list ascii) :
  string_of_list_ascii (a ++ b) =
  string_of_list_ascii a ++ string_of_list_ascii b.
Proof. induction a as [|c a IH]; simpl; [done|by rewrite IH]. Qed.

Section SizePatterns.
Import GoRegexp.

Local Ltac invert H := inversion H; subst; clear H.

Lemma lang_digits l :
  lang (Star (Cls Digit)) l <-> digits (string_of_list_ascii l) = true.
Proof.
  unfold digits. rewrite list_ascii_of_string_of_list_ascii.
  rewrite lang_star_class, forallb_forall, Forall_forall.
  split; intros H c Hc; apply H; by apply list_elem_of_In.
Qed.

Lemma lang_x l : lang (Cls (OneOf ["x"%char])) l <-> l = ["x"%char].
Proof.
  split.
  - intros H. invert H. simpl in *.
    match goal with E : _ || false = true |- _ =>
      rewrite orb_false_r in E; apply Ascii.eqb_eq in E; by subst end.
  - intros ->. by constructor.
Qed.

Lemma MatchString_sizeStrict (s : string) :
  MatchString sizeStrict s = true <->
  exists w h, digits w = true /\ digits h = true /\ s = w ++ "x" ++ h.
Proof.
  unfold MatchString. rewrite matches_lang. split.
  - intros H. invert H.
    match goal with H2 : lang (Cat _ _) _ |- _ => invert H2 end.
    repeat match goal with
           | H : lang (Star (Cls Digit)) _ |- _ => apply lang_digits in H
           | H : lang (Cls (OneOf _)) _ |- _ => apply lang_x in H; subst
           end.
    match goal with E : (?l1 ++ ["x"%char] ++ ?l2)%list = _ |- _ =>
      exists (string_of_list_ascii l1), (string_of_list_ascii l2);
      split; [done|split; [done|]];
      rewrite <- (string_of_list_ascii_of_string s), <- E end.
    by rewrite string_of_list_ascii_app.
  - intros (w & h & Hw & Hh & ->).
    rewrite !list_ascii_of_string_app. unfold sizeStrict.
    repeat constructor.
    + apply lang_digits. by rewrite string_of_list_ascii_of_string.
    + apply lang_digits. by rewrite string_of_list_ascii_of_string.
Qed.

Lemma MatchString_sizeLoose (s : string) :
  MatchString sizeLoose s = true <->
  exists w h, digits w = true /\ digits h = true
              /\ (s = w ++ h \/ s = w ++ "x" ++ h).
Proof.
  unfold MatchString. rewrite matches_lang. split.
  - intros H. invert H.
    match goal with H2 : lang (Cat _ _) _ |- _ => invert H2 end.
    match goal with H2 : lang (Opt _) _ |- _ => invert H2 end;
    repeat match goal with
           | H : lang (Star (Cls Digit)) _ |- _ => apply lang_digits in H
           | H : lang (Cls (OneOf _)) _ |- _ => apply lang_x in H; subst
           | H : lang Eps _ |- _ => invert H
           end;
    match goal with E : (?l1 ++ _ ++ ?l2)%list = _ |- _ =>
      exists (string_of_list_ascii l1), (string_of_list_ascii l2);
      split; [done|split; [done|]];
      rewrite <- (string_of_list_ascii_of_string s), <- E end.
    + right. by rewrite string_of_list_ascii_app.
    + left. by rewrite string_of_list_ascii_app.
  - intros (w & h & Hw & Hh & [->| ->]);
      rewrite !list_ascii_of_string_app; unfold sizeLoose.
    + constructor; [apply lang_digits; by rewrite string_of_list_ascii_of_string|].
      apply (lang_cat _ _ []); [apply lang_alt_r; constructor|].
      apply lang_digits; by rewrite string_of_list_ascii_of_string.
    + constructor; [apply lang_digits; by rewrite string_of_list_ascii_of_string|].
      constructor; [apply lang_alt_l; by constructor|].
      apply lang_digits; by rewrite string_of_list_ascii_of_string.
Qed.

End SizePatterns.

(** ** Handlers: rejected requests *)

Lemma Status_Error msg code w :
  Status w = None -> Status (Error msg code w) = Some code.
Proof. intros H. unfold Error, Write, WriteHeader. simpl. by rewrite H. Qed.

Lemma length_zero_iff (s : string) :
  (String.length s =? 0)%nat = true <-> s = "".
Proof. destruct s; simpl; split; done. Qed.

(** C6. The size string of [resize] has to match [\d*x?\d*], the one of
    [fit] has to match [\d*x\d*]; a missing (empty) or non-matching size is
    answered with 400 and nothing else happens; a size that passes is
    handed to [transformUrl]. *)
Theorem size_validation (G : Globals) (req : Request) (s : hstate) :
  let size := getQueryParam (Url req) "size" in
  (forall str, GoRegexp.MatchString sizeLoose str = true <->
     exists w h, digits w = true /\ digits h = true
                 /\ (str = w ++ h \/ str = w ++ "x" ++ h))
  /\ (forall str, GoRegexp.MatchString sizeStrict str = true <->
        exists w h, digits w = true /\ digits h = true /\ str = w ++ "x" ++ h)
  /\ (if bool_decide (size ≠ "") && GoRegexp.MatchString sizeLoose size
      then ResizeUrl G req s =
           (t ← method Resize; transformUrl G req t (Some {| Size := size |})) s
      else answeredError StatusBadRequest s (ResizeUrl G req s))
  /\ (if bool_decide (size ≠ "") && GoRegexp.MatchString sizeStrict size
      then FitToSizeUrl G req s =
           (t ← method FitToSize; transformUrl G req t (Some {| Size := size |})) s
      else answeredError StatusBadRequest s (FitToSizeUrl G req s))
  /\ (forall out, answeredError StatusBadRequest s out ->
        Status (resp s) = None -> Status (resp out.2) = Some 400)
  /\ GoRegexp.MatchString sizeLoose "50" = true
  /\ GoRegexp.MatchString sizeLoose "x50" = true
  /\ GoRegexp.MatchString sizeLoose "50x50" = true
  /\ GoRegexp.MatchString sizeStrict "50x50" = true
  /\ GoRegexp.MatchString sizeStrict "50" = false
  /\ GoRegexp.MatchString sizeLoose "abcx" = false.
Proof.
  intros size.
  split; [exact MatchString_sizeLoose|].
  split; [exact MatchString_sizeStrict|].
  split; [|split; [|split]].
  - unfold ResizeUrl. fold size. case_bool_decide as Hs; simpl.
    + destruct (String.length size =? 0)%nat eqn:Hl.
      { apply length_zero_iff in Hl. done. }
      destruct (GoRegexp.MatchString sizeLoose size); simpl; [done|].
      by eexists.
    + rewrite Hs. simpl. by eexists.
  - unfold FitToSizeUrl. fold size. case_bool_decide as Hs; simpl.
    + destruct (String.length size =? 0)%nat eqn:Hl.
      { apply length_zero_iff in Hl. done. }
      destruct (GoRegexp.MatchString sizeStrict size); simpl; [done|].
      by eexists.
    + rewrite Hs. simpl. by eexists.
  - intros out [msg ->] Hst. exact (Status_Error msg _ _ Hst).
  - repeat split; reflexivity.
Qed.

(** ** The lane worker *)

Lemma deref_Some op w c : heap w !! op = Some c -> deref op w = (Ret c, w).
Proof. intros H. unfold deref. by rewrite H. Qed.

Lemma deref_None op w : heap w !! op = None -> deref op w = (Panic, w).
Proof. intros H. unfold deref. by rewrite H. Qed.

Lemma world_eta w : {| heap := heap w; trace := trace w |} = w.
Proof. by destruct w. Qed.

(** The iteration in closed form. *)
Lemma iteration_closed op w c :
  heap w !! op = Some c ->
  Queue.iteration op w =
  ((iterated op c).1.1,
   {| heap := <[op := (iterated op c).1.2]> (heap w);
      trace := (trace w ++ (iterated op c).2)%list |}).
Proof.
  intros Hc.
  assert (Hlt : (op < length (heap w))%nat) by (by eapply lookup_lt_Some).
  unfold Queue.iteration, iterated, completion.
  unfold mbind, M_bind, deref, store, emit, nonnil, mret, M_ret, panic.
  simpl. rewrite Hc. simpl.
  destruct c as [t cfg r fc fin e]. simpl in *.
  destruct r as [img|]; simpl.
  - rewrite Hc; simpl. destruct fc; simpl.
    + rewrite Hc; simpl. by rewrite <- !app_assoc.
    + by rewrite list_insert_id, app_nil_r, world_eta.
  - destruct t as [f|]; simpl.
    + rewrite list_lookup_insert_eq by done. simpl. destruct fc; simpl.
      * rewrite list_lookup_insert_eq by done. simpl.
        rewrite list_insert_insert_eq. by rewrite <- !app_assoc.
      * done.
    + by rewrite list_insert_id, app_nil_r, world_eta.
Qed.

Lemma iteration_None op w :
  heap w !! op = None -> Queue.iteration op w = (Panic, w).
Proof.
  intros Hc. unfold Queue.iteration, mbind, M_bind, deref, nonnil, panic.
  by rewrite Hc.
Qed.

Lemma iterated_Ret op c :
  (iterated op c).1.1 = Ret tt <->
  submittable c /\ Command.FinishedCond c = true.
Proof.
  unfold iterated, submittable.
  destruct c as [[f|] cfg [img|] [|] fin e]; simpl; split;
    try done; try naive_solver.
Qed.

Lemma iterated_flags op c :
  (iterated op c).1.1 = Ret tt ->
  Command.Finished (iterated op c).1.2 = true
  /\ Command.FinishedCond (iterated op c).1.2 = true
  /\ Command.Transformation (iterated op c).1.2 = Command.Transformation c
  /\ Command.Config (iterated op c).1.2 = Command.Config c.
Proof.
  unfold iterated.
  by destruct c as [[f|] cfg [img|] [|] fin e]; simpl.
Qed.

(** [AddAndWait] in closed form, for a command on which the worker does
    not panic: the callback runs after the events of the send, of the
    iteration and of the wait. *)
Lemma AddAndWait_closed q op callback s c :
  heap (wld s) !! op = Some c ->
  (iterated op c).1.1 = Ret tt ->
  AddAndWait (Some q) op callback s =
  callback
    {| srv := srv s;
       wld := {| heap := <[op := (iterated op c).1.2]> (heap (wld s));
                 trace := (trace (wld s) ++ [EvSend (Queue.ops q) op]
                           ++ (iterated op c).2
                           ++ [EvAwait op; EvCallback op])%list |};
       resp := resp s |}.
Proof.
  intros Hc Hret.
  assert (Hlt : (op < length (heap (wld s)))%nat) by (by eapply lookup_lt_Some).
  destruct (iterated_flags _ _ Hret) as (Hfin & Hcond & _).
  unfold AddAndWait.
  unfold mbind, M_bind, nonnil, mret, M_ret, onStore, onWorker, emit. simpl.
  rewrite (iteration_closed op _ c) by done. simpl.
  rewrite Hret. simpl.
  unfold deref, nonnil, mret, M_ret. simpl.
  rewrite list_lookup_insert_eq by done. simpl.
  rewrite Hcond, Hfin. simpl.
  by rewrite <- !app_assoc.
Qed.

(** A worker that panics ends the process; the callback does not run. *)
Lemma AddAndWait_crash q op callback s c :
  heap (wld s) !! op = Some c ->
  (iterated op c).1.1 = Panic ->
  (AddAndWait (Some q) op callback s).1 = Crash.
Proof.
  intros Hc Hret.
  unfold AddAndWait.
  unfold mbind, M_bind, nonnil, mret, M_ret, onStore, onWorker, emit. simpl.
  rewrite (iteration_closed op _ c) by done. simpl.
  by rewrite Hret.
Qed.


(** ** The worker loop *)

Lemma start_cons op rest w :
  Queue.start (op :: rest) w =
  match Queue.iteration op w with
  | (Ret _, w1) => Queue.start rest w1
  | (Panic, w1) => (Panic, w1)
  | (Crash, w1) => (Crash, w1)
  | (Blocked, w1) => (Blocked, w1)
  end.
Proof. reflexivity. Qed.

(** A run of the loop only writes to the commands it receives. *)
Lemma start_untouched ops w op :
  op ∉ ops -> heap (Queue.start ops w).2 !! op = heap w !! op.
Proof.
  revert w. induction ops as [|op1 rest IH]; intros w Hnin; [done|].
  apply not_elem_of_cons in Hnin as [Hne Hnin].
  rewrite start_cons.
  destruct (heap w !! op1) as [c1|] eqn:Hc1.
  - rewrite (iteration_closed _ _ _ Hc1).
    destruct (iterated op1 c1).1.1; simpl;
      rewrite ?IH by done; simpl; by rewrite list_lookup_insert_ne.
  - by rewrite (iteration_None _ _ Hc1).
Qed.

(** Two stores that agree on the commands that arrive give the same run. *)
Lemma start_agree ops w w' :
  length (heap w) = length (heap w') ->
  (forall op, op ∈ ops -> heap w !! op = heap w' !! op) ->
  (Queue.start ops w).1 = (Queue.start ops w').1
  /\ (forall op, op ∈ ops ->
        heap (Queue.start ops w).2 !! op = heap (Queue.start ops w').2 !! op)
  /\ exists evs, trace (Queue.start ops w).2 = (trace w ++ evs)%list
                 /\ trace (Queue.start ops w').2 = (trace w' ++ evs)%list.
Proof.
  revert w w'. induction ops as [|op1 rest IH]; intros w w' Hlen Hag.
  { split; [done|]. split; [by intros op ?%elem_of_nil|].
    exists []. by rewrite !app_nil_r. }
  rewrite !start_cons.
  pose proof (Hag op1 (list_elem_of_here _ _)) as H1.
  destruct (heap w !! op1) as [c1|] eqn:Hc1.
  - symmetry in H1.
    rewrite (iteration_closed _ _ _ Hc1), (iteration_closed _ _ _ H1).
    set (w1 := {| heap := <[op1:=(iterated op1 c1).1.2]> (heap w);
                  trace := (trace w ++ (iterated op1 c1).2)%list |}).
    set (w1' := {| heap := <[op1:=(iterated op1 c1).1.2]> (heap w');
                   trace := (trace w' ++ (iterated op1 c1).2)%list |}).
    assert (Hlen1 : length (heap w1) = length (heap w1'))
      by (simpl; by rewrite !length_insert).
    assert (Hag1 : forall op, op ∈ op1 :: rest -> heap w1 !! op = heap w1' !! op).
    { intros op Hop. simpl. destruct (decide (op1 = op)) as [->|Hne].
      - rewrite !list_lookup_insert_eq; [done|..].
        + rewrite <- Hlen. by eapply lookup_lt_Some.
        + by eapply lookup_lt_Some.
      - rewrite !list_lookup_insert_ne by done. by apply Hag. }
    destruct (iterated op1 c1).1.1; simpl.
    + destruct (IH w1 w1' Hlen1) as (Hr & Hh & evs & Ht & Ht').
      { intros op Hop. apply Hag1. by right. }
      split; [done|]. split.
      * intros op Hop. destruct (decide (op ∈ rest)) as [Hin|Hnin]; [by apply Hh|].
        rewrite !start_untouched by done. by apply Hag1.
      * exists ((iterated op1 c1).2 ++ evs)%list.
        rewrite Ht, Ht'. simpl. by rewrite <- !app_assoc.
    + split; [done|]. split; [done|]. by eexists.
    + split; [done|]. split; [done|]. by eexists.
    + split; [done|]. split; [done|]. by eexists.
  - symmetry in H1. rewrite (iteration_None _ _ Hc1), (iteration_None _ _ H1).
    split; [done|]. split; [by auto|]. exists []. by rewrite !app_nil_r.
Qed.

Lemma writeResult_error G op s c e :
  heap (wld s) !! op = Some c ->
  Command.Err c = Some e ->
  writeResult G op s =
  (Ret tt, {| srv := srv s; wld := wld s;
              resp := Error ("Error transforming image: '" ++ e ++ "'")
                        StatusInternalServerError (resp s) |}).
Proof.
  intros Hc He. unfold writeResult, mbind, M_bind, onStore.
  rewrite (deref_Some _ _ _ Hc), He. unfold onResp. by destruct s.
Qed.

Lemma execOp_closed G op s c q r' :
  heap (wld s) !! op = Some c ->
  getQueue (srv s) = (Ret (Some q), r') ->
  submittable c ->
  execOp G op s =
  (c' ← onStore (deref op);
   cfg ← nonnil (Command.Config c');
   _ ← nonnil (TransformationConfig.Src cfg);
   writeResult G op) (afterWait q r' op c s).
Proof.
  intros Hc Hq Hsub.
  assert (Hlt : (op < length (heap (wld s)))%nat) by (by eapply lookup_lt_Some).
  unfold execOp.
  unfold mbind at 1, M_bind at 1, onStore at 1. rewrite (deref_Some _ _ _ Hc).
  unfold mbind at 1, M_bind at 1, onStore at 1, store. simpl.
  unfold mbind at 1, M_bind at 1, nextQueue. simpl. rewrite Hq.
  erewrite AddAndWait_closed; simpl.
  - unfold afterWait. by rewrite list_insert_insert_eq.
  - by rewrite list_lookup_insert_eq.
  - apply iterated_Ret. split; [|done]. by destruct c.
Qed.

(** ** The lane cursor *)

Lemma wrap64_small z : - 2 ^ 63 <= z < 2 ^ 63 -> wrap64 z = z.
Proof. intros H. unfold wrap64. rewrite Z.mod_small; lia. Qed.

Lemma NewService_queues (m : nat) (q : list (option Queue.t)) (a : nat) :
  (a + m <= length q)%nat ->
  let q' := foldl (fun q i => <[i := Some (Queue.NewQueue i)]> q) q (seq a m) in
  length q' = length q
  /\ forall i, q' !! i =
       if decide (a <= i < a + m)%nat then Some (Some (Queue.NewQueue i))
       else q !! i.
Proof.
  revert q a. induction m as [|m IH]; intros q a Hlen; simpl.
  - split; [done|]. intros i. case_decide; [lia|done].
  - destruct (IH (<[a := Some (Queue.NewQueue a)]> q) (S a)) as [Hl Hi].
    { rewrite length_insert. lia. }
    rewrite length_insert in Hl. split; [done|].
    intros i. rewrite Hi.
    destruct (decide (S a <= i < S a + m)%nat).
    + rewrite decide_True by lia. done.
    + destruct (decide (i = a)) as [->|Hne].
      * rewrite decide_True by lia. rewrite list_lookup_insert_eq by lia. done.
      * rewrite decide_False by lia. by rewrite list_lookup_insert_ne.
Qed.

Lemma NewService_lanes l p n :
  1 <= n < 2 ^ 63 ->
  exists r, NewService l p n = (Some r, None) /\ lanes n r
            /\ Service.currProc r = 0
            /\ Service.Loader r = l /\ Service.Processor r = p.
Proof.
  intros Hn. unfold NewService.
  destruct (n <=? 0) eqn:Hle; [lia|].
  eexists. split; [done|]. simpl.
  destruct (NewService_queues (Z.to_nat n) (replicate (Z.to_nat n) None) 0)
    as [Hl Hi].
  { rewrite length_replicate. lia. }
  rewrite length_replicate in Hl.
  split; [|done]. split; simpl.
  - done.
  - unfold len. rewrite Hl. lia.
  - intros i Hlt. rewrite Hi. rewrite Hl in Hlt. by rewrite decide_True by lia.
  - lia.
Qed.

Lemma NewService_invalid l p n :
  n <= 0 -> exists msg, NewService l p n = (None, Some msg).
Proof.
  intros Hn. unfold NewService. destruct (n <=? 0) eqn:Hle; [|lia].
  by eexists.
Qed.

(** [getQueue] on such a service: the cursor moves one lane on, modulo the
    number of lanes, and the queue of the new lane is returned. *)
Lemma getQueue_lanes n r :
  lanes n r ->
  let c := (Service.currProc r + 1) mod n in
  getQueue r = (Ret (Some (Queue.NewQueue (Z.to_nat c))), Service.set_currProc c r)
  /\ lanes n (Service.set_currProc c r).
Proof.
  intros [Hpos Hlen Hq Hcur] c.
  assert (Hc : 0 <= c < n) by (apply Z.mod_pos_bound; lia).
  assert (Hc' : (if wrap64 (Service.currProc r + 1) =? len (Service.Q r)
                 then 0 else wrap64 (Service.currProc r + 1)) = c).
  { rewrite wrap64_small by lia. rewrite Hlen. unfold c.
    destruct (Z.eqb_spec (Service.currProc r + 1) n) as [->|Hne].
    - by rewrite Z_mod_same_full.
    - rewrite Z.mod_small; lia. }
  split.
  - unfold getQueue. rewrite Hc'. rewrite Hlen.
    destruct (Z.leb_spec 0 c); [|lia]. destruct (Z.ltb_spec c n); [|lia]. simpl.
    rewrite Hq; [done|]. unfold len in Hlen. lia.
  - split; simpl; done.
Qed.

Lemma onWorker_srv {A} (m : M world A) s : srv (onWorker m s).2 = srv s.
Proof. unfold onWorker. destruct (m (wld s)) as [[]?]; done. Qed.

Lemma assign_lanes n op s :
  lanes n (srv s) ->
  let c := (Service.currProc (srv s) + 1) mod n in
  ((assign op s).1 = Ret (Some (Queue.NewQueue (Z.to_nat c)))
   /\ srv (assign op s).2 = Service.set_currProc c (srv s))
  \/ ((assign op s).1 = Panic /\ srv (assign op s).2 = srv s).
Proof.
  intros Hl c. unfold assign, mbind, M_bind, onStore, deref, nonnil.
  destruct (heap (wld s) !! op) as [c0|]; simpl; [|by right].
  left. unfold nextQueue. simpl.
  destruct (getQueue_lanes n (srv s) Hl) as [-> _]. done.
Qed.

(** The queues picked along a schedule. *)
Lemma run_lanes n sched s :
  lanes n (srv s) ->
  let cur := Service.currProc (srv s) in
  let out := run sched s in
  lanes n (srv out.2)
  /\ Service.currProc (srv out.2) = (cur + Z.of_nat (length out.1)) mod n
  /\ forall k : nat, (k < length out.1)%nat ->
       out.1 !! k =
       Some (Some (Queue.NewQueue (Z.to_nat ((cur + Z.of_nat k + 1) mod n)))).
Proof.
  revert s. induction sched as [|[op|op] rest IH]; intros s Hl; simpl.
  - split; [done|]. split; [|intros k; simpl; lia].
    rewrite Z.add_0_r, Z.mod_small; [done|]. by destruct Hl.
  - pose proof (assign_lanes n op s Hl) as Ha.
    destruct (assign op s) as [ra s1]; simpl in Ha.
    destruct Ha as [[-> Hs1]|[-> Hs1]].
    + assert (Hl1 : lanes n (srv s1)).
      { rewrite Hs1. by apply getQueue_lanes. }
      specialize (IH s1 Hl1). destruct (run rest s1) as [qs s2]. simpl in *.
      destruct IH as (IH1 & IH2 & IH3). split; [done|].
      rewrite Hs1 in IH2, IH3. simpl in IH2, IH3.
      split.
      * rewrite IH2, Zplus_mod_idemp_l. f_equal. lia.
      * intros [|k] Hk; simpl.
        -- by rewrite Z.add_0_r.
        -- rewrite IH3 by lia. rewrite <- Z.add_assoc, Zplus_mod_idemp_l.
           replace (Service.currProc (srv s) + 1 + (Z.of_nat k + 1))
             with (Service.currProc (srv s) + Z.of_nat (S k) + 1) by lia.
           done.
    + rewrite <- Hs1 in Hl. specialize (IH s1 Hl). rewrite Hs1 in IH. done.
  - pose proof (onWorker_srv (Queue.iteration op) s) as Hw.
    destruct (onWorker (Queue.iteration op) s) as [rw s1]; simpl in Hw.
    assert (Hl1 : lanes n (srv s1)) by (by rewrite Hw).
    destruct rw; try (specialize (IH s1 Hl1); rewrite Hw in IH; exact IH).
    simpl. rewrite Hw. split; [done|]. split; [|intros k; simpl; lia].
    rewrite Z.add_0_r, Z.mod_small; [done|]. by destruct Hl.
Qed.

Lemma mod_eq_close a b n :
  0 < n -> a mod n = b mod n -> - n < a - b < n -> a = b.
Proof.
  intros Hn Hm Hd.
  pose proof (Z.div_mod a n ltac:(lia)) as Ha.
  pose proof (Z.div_mod b n ltac:(lia)) as Hb.
  rewrite Hm in Ha.
  assert (a / n = b / n) by nia. nia.
Qed.

(** C1. In every schedule of submissions and worker iterations on a service
    built by [NewService] with [N] lanes, the [k]-th submission (counted
    from 1, from any point of the run on) is given the lane
    [(cursor + k) mod N], where [cursor] is the cursor at that point;
    the cursor stays in [[0, N)]; any [N] consecutive submissions are given
    each lane exactly once, each submission the lane after the one of the
    submission before.  Worker iterations do not change the assignment. *)
Theorem getQueue_round_robin (l : option Loader) (p : option Processor)
    (N : Z) (r0 : Service.t) (s0 : hstate) (before sched : list step) :
  N < 2 ^ 63 ->
  NewService l p N = (Some r0, None) ->
  srv s0 = r0 ->
  let s := (run before s0).2 in
  let cursor := Service.currProc (srv s) in
  let qs := (run sched s).1 in
  let lane (k : nat) := Z.to_nat ((cursor + Z.of_nat k) mod N) in
  1 <= N
  /\ Service.currProc r0 = 0
  /\ 0 <= cursor < N
  /\ 0 <= Service.currProc (srv (run sched s).2) < N
  /\ (forall k : nat, (1 <= k <= length qs)%nat ->
        qs !! (k - 1)%nat = Some (Some (Queue.NewQueue (lane k)))
        /\ Service.Q r0 !! lane k = Some (Some (Queue.NewQueue (lane k))))
  /\ (forall (j : nat) (i : nat),
        (j + Z.to_nat N <= length qs)%nat -> (Z.of_nat i < N) ->
        exists k : nat,
          (j < k <= j + Z.to_nat N)%nat /\ lane k = i
          /\ forall k' : nat, (j < k' <= j + Z.to_nat N)%nat -> lane k' = i -> k' = k)
  /\ (forall k : nat, Z.of_nat (lane (S k)) = (Z.of_nat (lane k) + 1) mod N).
Proof.
  intros Hmax Hnew Hs0 s cursor qs lane.
  assert (Hpos : 1 <= N).
  { unfold NewService in Hnew. destruct (Z.leb_spec N 0); [done|lia]. }
  destruct (NewService_lanes l p N ltac:(lia)) as (r & Hr & Hl & Hc0 & _).
  rewrite Hnew in Hr. injection Hr as <-. subst r0.
  destruct (run_lanes N before s0 Hl) as (Hl1 & _ & _). fold s in Hl1.
  destruct (run_lanes N sched s Hl1) as (Hl2 & Hcur & Hqs).
  fold cursor qs in Hcur, Hqs.
  assert (Hlane : forall k, 0 <= (cursor + Z.of_nat k) mod N < N)
    by (intros k; apply Z.mod_pos_bound; lia).
  split; [done|]. split; [done|].
  split; [by destruct Hl1|]. split; [by destruct Hl2|].
  split; [|split].
  - intros k Hk. split.
    + rewrite Hqs by lia. unfold lane.
      replace (cursor + Z.of_nat (k - 1) + 1) with (cursor + Z.of_nat k) by lia.
      done.
    + destruct Hl as [_ Hlen Hq _]. apply Hq. unfold len in Hlen.
      unfold lane. specialize (Hlane k). lia.
  - intros j i Hj Hi.
    set (a := cursor + Z.of_nat j + 1).
    set (d := (Z.of_nat i - a) mod N).
    assert (Hd : 0 <= d < N) by (apply Z.mod_pos_bound; lia).
    assert (Hlane' : forall k : nat, lane k = i <-> (cursor + Z.of_nat k) mod N = Z.of_nat i).
    { intros k. unfold lane. specialize (Hlane k). lia. }
    exists (S j + Z.to_nat d)%nat. split; [lia|]. split.
    + apply Hlane'.
      replace (cursor + Z.of_nat (S j + Z.to_nat d)) with (a + d) by lia.
      unfold d. rewrite Zplus_mod_idemp_r.
      replace (a + (Z.of_nat i - a)) with (Z.of_nat i) by lia.
      apply Z.mod_small. lia.
    + intros k' Hk' Hk'i. apply Hlane' in Hk'i.
      assert (Heq : (cursor + Z.of_nat k') mod N = (a + d) mod N).
      { rewrite Hk'i. unfold d. rewrite Zplus_mod_idemp_r.
        replace (a + (Z.of_nat i - a)) with (Z.of_nat i) by lia.
        symmetry. apply Z.mod_small. lia. }
      apply mod_eq_close in Heq; [|lia|]; unfold a in *; lia.
  - intros k. unfold lane. rewrite !Z2Nat.id by (apply Hlane).
    rewrite Zplus_mod_idemp_l.
    replace (cursor + Z.of_nat k + 1) with (cursor + Z.of_nat (S k)) by lia.
    done.
Qed.

(** ** The image locator *)

Lemma getImgUrl_empty req :
  getImgUrl req = "" <-> default "" (Vars req !! "imgUrl") = "".
Proof.
  unfold getImgUrl. destruct (default "" (Vars req !! "imgUrl")) as [|a seg] eqn:Hseg;
    simpl; [done|].
  destruct (_ && _); [|done].
  split; [|done]. intros H.
  destruct (default "" (values (Header req) "X-Forwarded-Proto" !! 0%nat)); done.
Qed.

(** C8. A path segment that starts with ["//"] is completed with the
    forwarded protocol when exactly one forwarded-protocol header value is
    present; every other segment is the locator as it is; an empty segment
    is answered with 400 before anything is loaded or submitted. *)
Theorem getImgUrl_locator (G : Globals) (req : Request) :
  let segment := default "" (Vars req !! "imgUrl") in
  let protos := values (Header req) "X-Forwarded-Proto" in
  (forall proto, GoStrings.HasPrefix segment "//" = true -> protos = [proto] ->
     getImgUrl req = proto ++ ":" ++ segment)
  /\ (~ (GoStrings.HasPrefix segment "//" = true /\ length protos = 1%nat) ->
      getImgUrl req = segment)
  /\ (segment = "" ->
      forall s t cfg,
        answeredError StatusBadRequest s (transformUrl G req t cfg s)
        /\ answeredError StatusBadRequest s (AsIs G req s)).
Proof.
  intros segment protos.
  split; [|split].
  - intros proto Hpre Hp. unfold getImgUrl. fold segment protos.
    rewrite Hpre, Hp. simpl.
    destruct segment; [done|]. done.
  - intros Hn. unfold getImgUrl. fold segment protos.
    destruct segment as [|a seg]; [done|]. simpl String.length. simpl Nat.eqb.
    cbv iota.
    destruct (GoStrings.HasPrefix (String a seg) "//") eqn:Hpre; [|done].
    destruct (Nat.eqb_spec (length protos) 1); [|done].
    destruct Hn. done.
  - intros Hseg s t cfg.
    assert (Hu : getImgUrl req = "") by (by apply getImgUrl_empty).
    unfold transformUrl, AsIs. rewrite Hu. simpl.
    split; by eexists.
Qed.

(** ** Rules for code in [M] *)

Section Rules.
Context {S : Type}.

Lemma nocrash_ret {A} (a : A) : nocrash (mret a : M S A).
Proof. by intros s. Qed.

Lemma nocrash_panic {A} : nocrash (@panic S A).
Proof. by intros s. Qed.

Lemma nocrash_blocked {A} : nocrash (@blocked S A).
Proof. by intros s. Qed.

Lemma nocrash_nonnil {A} (o : option A) : nocrash (@nonnil S A o).
Proof. by destruct o. Qed.

Lemma nocrash_bind {A B} (m : M S A) (f : A -> M S B) :
  nocrash m -> (forall a, nocrash (f a)) -> nocrash (m ≫= f).
Proof.
  intros Hm Hf s. specialize (Hm s). unfold mbind, M_bind.
  destruct (m s) as [[a| | |] s']; simpl in *; try done. apply Hf.
Qed.

Context (R : relation S) `{!PreOrder R}.

Lemma keeps_ret {A} (a : A) : keeps R (mret a : M S A).
Proof. by intros s. Qed.

Lemma keeps_panic {A} : keeps R (@panic S A).
Proof. by intros s. Qed.

Lemma keeps_blocked {A} : keeps R (@blocked S A).
Proof. by intros s. Qed.

Lemma keeps_nonnil {A} (o : option A) : keeps R (@nonnil S A o).
Proof. destruct o; [apply keeps_ret|apply keeps_panic]. Qed.

Lemma keeps_bind {A B} (m : M S A) (f : A -> M S B) :
  keeps R m -> (forall a, keeps R (f a)) -> keeps R (m ≫= f).
Proof.
  intros Hm Hf s. specialize (Hm s). unfold mbind, M_bind.
  destruct (m s) as [[a| | |] s']; simpl in *; try done.
  etrans; [done|]. apply Hf.
Qed.
End Rules.

Create HintDb mrules discriminated.
#[global] Hint Extern 1 (PreOrder _) => tc_solve : mrules.
#[global] Hint Resolve nocrash_ret nocrash_panic nocrash_blocked nocrash_nonnil
  keeps_ret keeps_panic keeps_blocked keeps_nonnil : mrules.

(** Breaks the code of the goal into its primitive steps. *)
Ltac msteps :=
  repeat first
    [ progress intros
    | apply nocrash_bind
    | apply keeps_bind; [tc_solve| |]
    | solve [eauto with mrules]
    | match goal with
      | |- nocrash (match ?x with _ => _ end) => destruct x
      | |- keeps _ (match ?x with _ => _ end) => destruct x
      | |- nocrash (if ?x then _ else _) => destruct x
      | |- keeps _ (if ?x then _ else _) => destruct x
      end ].

(** Code of the handler's goroutine. *)
Lemma nocrash_onStore {A} (m : M world A) : nocrash m -> nocrash (onStore m).
Proof.
  intros Hm s. specialize (Hm (wld s)). unfold onStore.
  by destruct (m (wld s)).
Qed.

Lemma nocrash_deref op : nocrash (deref op).
Proof. intros w. unfold deref. apply nocrash_nonnil. Qed.

Lemma nocrash_store op c : nocrash (store op c).
Proof. by intros w. Qed.

Lemma nocrash_emit e : nocrash (emit e).
Proof. by intros w. Qed.

Lemma nocrash_alloc c : nocrash (alloc c).
Proof. by intros w. Qed.

Lemma nocrash_onResp f : nocrash (onResp f).
Proof. by intros s. Qed.

Lemma nocrash_theService : nocrash theService.
Proof. by intros s. Qed.

Lemma nocrash_nextQueue : nocrash nextQueue.
Proof.
  intros s. unfold nextQueue, getQueue.
  repeat (case_match; simplify_eq; simpl; try done).
Qed.

#[global] Hint Resolve nocrash_onStore nocrash_deref nocrash_store nocrash_emit
  nocrash_alloc nocrash_onResp nocrash_theService nocrash_nextQueue : mrules.

Lemma nocrash_addHeaders G image : nocrash (addHeaders G image).
Proof. unfold addHeaders. msteps. Qed.
#[global] Hint Resolve nocrash_addHeaders : mrules.

Lemma nocrash_writeResult G op : nocrash (writeResult G op).
Proof. unfold writeResult. msteps. Qed.
#[global] Hint Resolve nocrash_writeResult : mrules.

Lemma nocrash_load src c : nocrash (load src c).
Proof. unfold load. msteps. Qed.

Lemma nocrash_method m : nocrash (method m).
Proof. unfold method. msteps. Qed.
#[global] Hint Resolve nocrash_load nocrash_method : mrules.

(** ** What a handler leaves behind *)

#[global] Instance onWld_preorder R : PreOrder R -> PreOrder (onWld R).
Proof.
  intros HR. split.
  - intros s. unfold onWld. reflexivity.
  - intros s1 s2 s3. unfold onWld. intros H1 H2. by etrans.
Qed.

#[global] Instance extends_preorder : PreOrder extends.
Proof.
  split.
  - intros w. unfold extends. reflexivity.
  - intros w1 w2 w3. unfold extends. intros H1 H2. by etrans.
Qed.

Section Keeps.
Context (R : relation world) `{!PreOrder R}.

Lemma keeps_onStore {A} (m : M world A) : keeps R m -> keeps (onWld R) (onStore m).
Proof.
  intros Hm s. specialize (Hm (wld s)). unfold onStore, onWld.
  by destruct (m (wld s)).
Qed.

Lemma keeps_onWorker {A} (m : M world A) : keeps R m -> keeps (onWld R) (onWorker m).
Proof.
  intros Hm s. specialize (Hm (wld s)). unfold onWorker, onWld.
  by destruct (m (wld s)) as [[]?].
Qed.

Lemma keeps_onResp f : keeps (onWld R) (onResp f).
Proof. intros s. unfold onWld. simpl. done. Qed.

Lemma keeps_theService : keeps (onWld R) theService.
Proof. intros s. unfold onWld. simpl. done. Qed.

Lemma keeps_nextQueue : keeps (onWld R) nextQueue.
Proof.
  intros s. unfold onWld, nextQueue. destruct (getQueue (srv s)). simpl. done.
Qed.

Lemma keeps_deref op : keeps R (deref op).
Proof. intros w. unfold deref. apply keeps_nonnil. tc_solve. Qed.
End Keeps.

Lemma extends_store op c : keeps extends (store op c).
Proof. intros w. unfold extends. reflexivity. Qed.

Lemma extends_emit e : keeps extends (emit e).
Proof. intros w. by apply prefix_app_r. Qed.

Lemma extends_alloc c : keeps extends (alloc c).
Proof. intros w. unfold extends. reflexivity. Qed.

#[global] Hint Resolve keeps_onStore keeps_onWorker keeps_onResp keeps_theService
  keeps_nextQueue keeps_deref extends_store extends_emit extends_alloc : mrules.

Lemma extends_iteration op : keeps extends (Queue.iteration op).
Proof. unfold Queue.iteration. msteps. Qed.
#[global] Hint Resolve extends_iteration : mrules.

Lemma extends_addHeaders G image : keeps (onWld extends) (addHeaders G image).
Proof. unfold addHeaders. msteps. Qed.
#[global] Hint Resolve extends_addHeaders : mrules.

Lemma extends_writeResult G op : keeps (onWld extends) (writeResult G op).
Proof. unfold writeResult. msteps. Qed.
#[global] Hint Resolve extends_writeResult : mrules.

Lemma extends_AddAndWait q op callback :
  keeps (onWld extends) callback ->
  keeps (onWld extends) (AddAndWait q op callback).
Proof. intros H. unfold AddAndWait. msteps. Qed.

Lemma extends_execOp G op : keeps (onWld extends) (execOp G op).
Proof. unfold execOp. msteps. Qed.
#[global] Hint Resolve extends_execOp : mrules.

Lemma extends_load src c : keeps (onWld extends) (load src c).
Proof. unfold load. msteps. Qed.
#[global] Hint Resolve extends_load : mrules.

Lemma extends_loadAndExec G req url t cfg :
  keeps (onWld extends) (loadAndExec G req url t cfg).
Proof. unfold loadAndExec. msteps. Qed.

Lemma load_closed src c s :
  load src c s =
  match Service.Loader (srv s) with
  | Some l => (Ret (Load l src c), loaded src s)
  | None => (Panic, s)
  end.
Proof.
  unfold load, mbind, M_bind, theService, nonnil, onStore, emit, mret, M_ret.
  by destruct (Service.Loader (srv s)).
Qed.

Lemma loadAndExec_closed G req url t cfg s :
  loadAndExec G req url t cfg s =
  match Service.Loader (srv s) with
  | None => (Panic, s)
  | Some l =>
      match Load l url (Ctx req) with
      | (_, Some e) =>
          onResp (Error ("Error reading image: '" ++ e ++ "'")
                    StatusInternalServerError) (loaded url s)
      | (srcImage, None) =>
          (op ← onStore (alloc (Command.mk t
                  (Some (TransformationConfig.mk srcImage (getSupportedFormats req)
                           (getQuality G req) cfg))
                  None false false None));
           execOp G op) (loaded url s)
      end
  end.
Proof.
  unfold loadAndExec. unfold mbind at 1, M_bind at 1. rewrite load_closed.
  destruct (Service.Loader (srv s)) as [l|]; [|done].
  by destruct (Load l url (Ctx req)) as [srcImage [e|]].
Qed.

(** [loadAndExec] calls the loader or panics. *)
Lemma loadAndExec_loads G req url t cfg s :
  (loadAndExec G req url t cfg s).1 = Panic \/
  exists evs, trace (wld (loadAndExec G req url t cfg s).2) =
              (trace (wld s) ++ EvLoad url :: evs)%list.
Proof.
  rewrite loadAndExec_closed.
  destruct (Service.Loader (srv s)) as [l|]; simpl; [|by left].
  right. destruct (Load l url (Ctx req)) as [srcImage [e|]].
  - exists []. reflexivity.
  - match goal with |- context [(?m (loaded url s)).2] =>
      assert (Hk : keeps (onWld extends) m) by msteps;
      specialize (Hk (loaded url s)); destruct Hk as [evs Hk] end.
    exists evs. rewrite Hk. simpl. by rewrite <- app_assoc.
Qed.

(** ** The save-data short-circuit *)

Lemma Body_Write data w : Body (Write data w) = Body w ++ data.
Proof. unfold Write, WriteHeader. by destruct (Status w). Qed.

Lemma ResolveHideOnSaveData_true enabled header override :
  ResolveHideOnSaveData enabled header override = true <->
  enabled = true /\ header = "on" /\ override = "hide".
Proof.
  unfold ResolveHideOnSaveData.
  rewrite !andb_true_iff, !String.eqb_eq. tauto.
Qed.

(** The placeholder: a GIF89a image of 1 by 1 pixel whose graphic control
    extension sets the transparency flag. *)
Lemma emptyGif_placeholder :
  length emptyGif = 37%nat
  /\ take 6 emptyGif = List.map N_of_ascii (list_ascii_of_string "GIF89a")
  /\ take 4 (drop 6 emptyGif) = [1; 0; 1; 0]%N
  /\ take 3 (drop 13 emptyGif) = [0x21; 0xf9; 0x04]%N
  /\ (exists flags, emptyGif !! 16%nat = Some flags /\ N.testbit flags 0 = true)
  /\ take 4 (drop 26 emptyGif) = [1; 0; 1; 0]%N
  /\ last emptyGif = Some 0x3b%N.
Proof. repeat split; try reflexivity. by exists 1%N. Qed.

(** C5 without the proviso on the locator fails: with the feature enabled,
    the header ["on"] and the query value ["hide"], a request with an empty
    locator is answered with 400, not with the placeholder. *)
Lemma hide_empty_locator_counterexample :
  let G := {| CacheTTL := 0; SaveDataEnabled := true |} in
  let s := {| srv := Service.mk None None [] 0;
              wld := {| heap := []; trace := [] |};
              resp := newResponse |} in
  ResolveHideOnSaveData (SaveDataEnabled G)
    (Get (Header noLocatorRequest) "Save-Data")
    (getQueryParam (Url noLocatorRequest) "save-data") = true
  /\ ~ hideFired s (transformUrl G noLocatorRequest None None s)
  /\ Status (resp (transformUrl G noLocatorRequest None None s).2) = Some 400
  /\ Body (resp (transformUrl G noLocatorRequest None None s).2)
     = "url param is required" ++ newline.
Proof.
  split; [reflexivity|]. split; [|split; reflexivity].
  unfold hideFired. vm_compute. intros H. discriminate H.
Qed.

(** C5 (amended). For a request with a non-empty locator, [transformUrl]
    answers with the placeholder image, and does nothing else, exactly when
    the save-data feature is enabled, the Save-Data header is ["on"] and
    the save-data query value is ["hide"]; otherwise it goes on to load the
    source.  The placeholder is a GIF89a image of 1 by 1 pixel with the
    transparency flag set. *)
Theorem hide_short_circuit (G : Globals) (req : Request) (t : option Cmd)
    (cfg : option ResizeConfig) (s : hstate) :
  getImgUrl req ≠ "" ->
  let enabled := SaveDataEnabled G in
  let header := Get (Header req) "Save-Data" in
  let override := getQueryParam (Url req) "save-data" in
  let out := transformUrl G req t cfg s in
  (hideFired s out <-> enabled = true /\ header = "on" /\ override = "hide")
  /\ (hideFired s out <-> ResolveHideOnSaveData enabled header override = true)
  /\ (hideFired s out ->
        Body (resp out.2) = Body (resp s) ++ GoStrings.of_bytes emptyGif
        /\ wld out.2 = wld s /\ srv out.2 = srv s)
  /\ (~ hideFired s out ->
        out = (onResp (HeaderAdd "Vary"
                         (if enabled then "Accept, Save-Data" else "Accept"));;
               loadAndExec G req (getImgUrl req) t cfg) s)
  /\ (length emptyGif = 37%nat
      /\ take 6 emptyGif = List.map N_of_ascii (list_ascii_of_string "GIF89a")
      /\ take 4 (drop 6 emptyGif) = [1; 0; 1; 0]%N
      /\ exists flags, emptyGif !! 16%nat = Some flags /\ N.testbit flags 0 = true).
Proof.
  intros Hurl enabled header override out.
  assert (Hlen : (String.length (getImgUrl req) =? 0)%nat = false).
  { destruct (getImgUrl req); [done|reflexivity]. }
  assert (Hout : out =
    if enabled && String.eqb header "on" && String.eqb override "hide"
    then (Ret tt, {| srv := srv s; wld := wld s;
                     resp := Write (GoStrings.of_bytes emptyGif)
                               (HeaderAdd "Vary" "Accept, Save-Data" (resp s)) |})
    else (onResp (HeaderAdd "Vary"
                    (if enabled then "Accept, Save-Data" else "Accept"));;
          loadAndExec G req (getImgUrl req) t cfg) s).
  { unfold out, transformUrl. rewrite Hlen. fold enabled header override.
    destruct enabled; simpl; [|done].
    destruct (String.eqb header "on" && String.eqb override "hide"); done. }
  assert (Hnot : ~ hideFired s
    ((onResp (HeaderAdd "Vary" (if enabled then "Accept, Save-Data" else "Accept"));;
      loadAndExec G req (getImgUrl req) t cfg) s)).
  { unfold hideFired. unfold mbind, M_bind, onResp. simpl.
    match goal with |- context [loadAndExec _ _ _ _ _ ?s1] =>
      destruct (loadAndExec_loads G req (getImgUrl req) t cfg s1) as [Hp|[evs Hevs]];
      destruct (loadAndExec G req (getImgUrl req) t cfg s1) as [r s2] end;
      simpl in *.
    - subst r. done.
    - intros [= -> ->]. simpl in Hevs.
      apply (f_equal length) in Hevs. rewrite length_app in Hevs.
      simpl in Hevs. lia. }
  assert (Hiff : hideFired s out <->
                 enabled && String.eqb header "on" && String.eqb override "hide" = true).
  { rewrite Hout.
    destruct (enabled && String.eqb header "on" && String.eqb override "hide");
      [by split|]. split; [by intros ?%Hnot|done]. }
  split; [|split; [|split; [|split]]].
  - rewrite Hiff. rewrite !andb_true_iff, !String.eqb_eq. tauto.
  - by rewrite Hiff.
  - intros Hf. rewrite Hf. cbn [fst snd resp wld srv].
    by rewrite Body_Write.
  - intros Hf. rewrite Hout.
    destruct (enabled && String.eqb header "on" && String.eqb override "hide") eqn:Hc;
      [|done].
    apply proj2 in Hiff. destruct Hf. by apply Hiff.
  - destruct emptyGif_placeholder as (H1 & H2 & H3 & _ & H5 & _). done.
Qed.

(** ** The commands that the handlers submit *)

(** The callback of [execOp] only writes the response. *)
Lemma callback_response G op :
  keeps (onWld eq)
    (c' ← onStore (deref op);
     cfg ← nonnil (Command.Config c');
     _ ← nonnil (TransformationConfig.Src cfg);
     writeResult G op)
  /\ nocrash
    (c' ← onStore (deref op);
     cfg ← nonnil (Command.Config c');
     _ ← nonnil (TransformationConfig.Src cfg);
     writeResult G op).
Proof. unfold writeResult, addHeaders. split; msteps. Qed.

Lemma getQueue_result r : (getQueue r).1 ≠ Crash /\ (getQueue r).1 ≠ Blocked.
Proof.
  unfold getQueue. repeat (case_match; simplify_eq; simpl; try done).
Qed.

Lemma iterated_submittable op c :
  submittable c -> submittable (iterated op c).1.2.
Proof.
  unfold submittable, iterated.
  destruct c as [[f|] cfg [img|] [|] fin e]; simpl; intros [[? ?]|[? ?]];
    simplify_eq; eauto.
Qed.

Lemma set_cond_submittable c : submittable c -> submittable (Command.set_cond c).
Proof. by destruct c. Qed.

(** [execOp] on a command that has a transformation or a result: the
    process survives; either the command is sent to a lane, executed by
    the worker and handed to the callback, or the handler panics before
    the command is sent. *)
Lemma execOp_cases G op s c :
  heap (wld s) !! op = Some c ->
  submittable c ->
  let out := execOp G op s in
  out.1 ≠ Crash
  /\ ((exists q r', getQueue (srv s) = (Ret (Some q), r')
                    /\ wld out.2 = wld (afterWait q r' op c s))
      \/ (out.1 = Panic
          /\ wld out.2 = {| heap := <[op := Command.set_cond c]> (heap (wld s));
                            trace := trace (wld s) |})).
Proof.
  intros Hc Hsub.
  destruct (getQueue (srv s)) as [rq r'] eqn:Hq.
  destruct rq as [[q|]| | |].
  - rewrite (execOp_closed G op s c q r') by done.
    destruct (callback_response G op) as [Hk Hn].
    split; [apply Hn|]. left. exists q, r'. split; [done|].
    symmetry. apply Hk.
  - simpl. unfold execOp, mbind, M_bind, onStore.
    rewrite (deref_Some _ _ _ Hc). simpl. unfold nextQueue. simpl.
    rewrite Hq. simpl. split; [done|]. by right.
  - simpl. unfold execOp, mbind, M_bind, onStore.
    rewrite (deref_Some _ _ _ Hc). simpl. unfold nextQueue. simpl.
    rewrite Hq. simpl. split; [done|]. by right.
  - destruct (getQueue_result (srv s)) as [H _]. by rewrite Hq in H.
  - destruct (getQueue_result (srv s)) as [_ H]. by rewrite Hq in H.
Qed.

Lemma iterated_events op c e :
  e ∈ (iterated op c).2 ->
  e ∈ [EvCall op; EvLock op; EvSetFinished op; EvUnlock op; EvSignal op].
Proof.
  unfold iterated, completion.
  destruct c as [[f|] cfg [img|] [|] fin e0]; simpl; set_solver.
Qed.

Lemma submits_quiet P s r s' evs :
  r ≠ Crash ->
  trace (wld s') = (trace (wld s) ++ evs)%list ->
  (forall lane op, EvSend lane op ∉ evs) ->
  submits P s (r, s').
Proof.
  intros Hr Ht Hq. split; [done|]. intros lane op. simpl.
  rewrite Ht, drop_app_length. intros H. by apply Hq in H.
Qed.

Lemma alloc_execOp_submits G (P : Command.t -> Prop) s0 s1 c0 src :
  submittable c0 ->
  (forall op, P (iterated op (Command.set_cond c0)).1.2) ->
  heap (wld s1) = heap (wld s0) ->
  trace (wld s1) = (trace (wld s0) ++ [EvLoad src])%list ->
  submits P s0 ((op ← onStore (alloc c0); execOp G op) s1).
Proof.
  intros Hsub HP Hh Ht.
  unfold mbind at 1, M_bind at 1, onStore at 1, alloc. simpl.
  set (op := length (heap (wld s1))).
  set (s2 := {| srv := srv s1;
                wld := {| heap := (heap (wld s1) ++ [c0])%list;
                          trace := trace (wld s1) |};
                resp := resp s1 |}).
  assert (Hc : heap (wld s2) !! op = Some c0).
  { simpl. unfold op. by rewrite list_lookup_middle. }
  destruct (execOp_cases G op s2 c0 Hc Hsub) as [Hn Hcases].
  destruct (execOp G op s2) as [r s3]. simpl in *.
  destruct Hcases as [(q & r' & _ & Hw)|[_ Hw]].
  - split; [done|]. intros lane op'. simpl. rewrite Hw. simpl.
    rewrite Ht, <- app_assoc, drop_app_length.
    intros Hin. assert (op' = op) as ->.
    { apply elem_of_cons in Hin as [?|Hin]; [done|].
      apply elem_of_cons in Hin as [?|Hin]; [by simplify_eq|].
      apply elem_of_app in Hin as [Hin|Hin].
      - apply iterated_events in Hin. set_solver.
      - set_solver. }
    split; [unfold op; rewrite Hh; lia|].
    eexists. split; [|apply HP].
    apply list_lookup_insert_eq. rewrite length_app. simpl. unfold op. lia.
  - apply (submits_quiet _ _ _ _ [EvLoad src]); [done|by rewrite Hw|].
    intros lane op'. set_solver.
Qed.

Lemma submits_unchanged P s (out : res unit * hstate) :
  out.1 ≠ Crash -> trace (wld out.2) = trace (wld s) -> submits P s out.
Proof.
  intros Hr Ht. destruct out as [r s'].
  apply (submits_quiet _ _ _ _ []); [done|by rewrite app_nil_r|].
  intros lane op. set_solver.
Qed.

Lemma iterated_Transformation op c :
  Command.Transformation (iterated op c).1.2 = Command.Transformation c.
Proof.
  unfold iterated. by destruct c as [[f|] cfg [img|] [|] fin e].
Qed.

Lemma iterated_Result op c :
  is_Some (Command.Result c) ->
  Command.Result (iterated op c).1.2 = Command.Result c.
Proof.
  unfold iterated. destruct c as [[f|] cfg [img|] [|] fin e]; simpl; try done;
    by intros [? ?].
Qed.

Lemma loadAndExec_submits G req url f cfg s0 s :
  heap (wld s) = heap (wld s0) ->
  trace (wld s) = trace (wld s0) ->
  submits (fun c => Command.Transformation c = Some f) s0
    (loadAndExec G req url (Some f) cfg s).
Proof.
  intros Hh Ht. rewrite loadAndExec_closed.
  destruct (Service.Loader (srv s)) as [l|].
  - destruct (Load l url (Ctx req)) as [srcImage [e|]].
    + apply (submits_quiet _ _ _ _ [EvLoad url]); [done|simpl; by rewrite Ht|].
      intros lane op. set_solver.
    + apply (alloc_execOp_submits _ _ _ _ _ url).
      * left. by eexists.
      * intros op. by rewrite iterated_Transformation.
      * done.
      * simpl. by rewrite Ht.
  - by apply submits_unchanged.
Qed.

Lemma transformUrl_submits G req f cfg s :
  submits (fun c => Command.Transformation c = Some f) s
    (transformUrl G req (Some f) cfg s).
Proof.
  unfold transformUrl.
  destruct (String.length (getImgUrl req) =? 0)%nat; [by apply submits_unchanged|].
  destruct (SaveDataEnabled G).
  - unfold mbind at 1, M_bind at 1, onResp at 1.
    destruct (_ && _); [by apply submits_unchanged|].
    by apply loadAndExec_submits.
  - unfold mbind at 1, M_bind at 1, onResp at 1.
    by apply loadAndExec_submits.
Qed.

Lemma method_transformUrl_submits G m req cfg s :
  submits (fun c => is_Some (Command.Transformation c)) s
    ((t ← method m; transformUrl G req t cfg) s).
Proof.
  unfold method, mbind, M_bind, theService, nonnil. simpl.
  destruct (Service.Processor (srv s)) as [p|]; simpl.
  - destruct (transformUrl_submits G req (m p) cfg s) as [Hn Hs].
    split; [done|]. intros lane op Hin.
    destruct (Hs lane op Hin) as (Hl & c & Hc & Ht). split; [done|].
    exists c. split; [done|]. by eexists.
  - by apply submits_unchanged.
Qed.

Lemma AsIs_submits G req s :
  submits (fun c => Command.Transformation c = None /\ is_Some (Command.Result c))
    s (AsIs G req s).
Proof.
  unfold AsIs.
  destruct (String.length (getImgUrl req) =? 0)%nat; [by apply submits_unchanged|].
  unfold mbind at 1, M_bind at 1. rewrite load_closed.
  destruct (Service.Loader (srv s)) as [l|]; [|by apply submits_unchanged].
  destruct (Load l (getImgUrl req) (Ctx req)) as [result [e|]].
  - apply (submits_quiet _ _ _ _ [EvLoad (getImgUrl req)]); [done|done|].
    intros lane op. set_solver.
  - destruct result as [img|].
    2:{ apply (submits_quiet _ _ _ _ [EvLoad (getImgUrl req)]); [done|done|].
        intros lane op. set_solver. }
    unfold mbind at 1, M_bind at 1, nonnil at 1, mret at 1, M_ret at 1.
    unfold mbind at 1, M_bind at 1.
    destruct (0 <? String.length (Image.MimeType img))%nat;
      [unfold onResp at 1|unfold mret at 1, M_ret at 1];
      (apply (alloc_execOp_submits _ _ _ _ _ (getImgUrl req));
       [right; by eexists
       |intros op; rewrite iterated_Transformation, iterated_Result; by eauto
       |done|done]).
Qed.

Lemma submits_weaken (P P' : Command.t -> Prop) s out :
  (forall c, P c -> P' c) -> submits P s out -> submits P' s out.
Proof.
  intros HP [Hn Hs]. split; [done|]. intros lane op Hin.
  destruct (Hs lane op Hin) as (Hl & c & Hc & Hp). eauto.
Qed.

(** C10. Every command that a handler sends to a lane has a transformation
    (those built by [transformUrl]) or a result (those built by [AsIs]),
    and on such a command, with its condition variable created, the call
    [op.Transformation(op.Config)] of the worker, taken whenever the result
    is nil, is never a call of a nil function: the worker returns from the
    iteration.  On a command with neither, the worker panics. *)
Theorem submitted_commands_runnable (G : Globals) (req : Request) (s : hstate) :
  (forall f cfg,
     submits (fun c => Command.Transformation c = Some f) s
       (transformUrl G req (Some f) cfg s))
  /\ submits (fun c => Command.Transformation c = None
                       /\ is_Some (Command.Result c)) s (AsIs G req s)
  /\ submits submittable s (AsIs G req s)
  /\ submits submittable s (OptimiseUrl G req s)
  /\ submits submittable s (ResizeUrl G req s)
  /\ submits submittable s (FitToSizeUrl G req s)
  /\ (forall op w c,
        heap w !! op = Some c -> Command.FinishedCond c = true ->
        (submittable c -> (Queue.iteration op w).1 = Ret tt)
        /\ (~ submittable c -> Queue.iteration op w = (Panic, w))).
Proof.
  split; [intros f cfg; apply transformUrl_submits|].
  split; [apply AsIs_submits|].
  split.
  { eapply submits_weaken; [|apply AsIs_submits]. intros c [_ H]. by right. }
  split.
  { eapply submits_weaken; [|apply method_transformUrl_submits].
    intros c H. by left. }
  split.
  { unfold ResizeUrl.
    destruct (String.length _ =? 0)%nat; [by apply submits_unchanged|].
    destruct (negb _); [by apply submits_unchanged|].
    eapply submits_weaken; [|apply method_transformUrl_submits].
    intros c H. by left. }
  split.
  { unfold FitToSizeUrl.
    destruct (String.length _ =? 0)%nat; [by apply submits_unchanged|].
    destruct (negb _); [by apply submits_unchanged|].
    eapply submits_weaken; [|apply method_transformUrl_submits].
    intros c H. by left. }
  intros op w c Hc Hcond. rewrite (iteration_closed _ _ _ Hc). split.
  - intros Hsub. simpl. by apply iterated_Ret.
  - intros Hn. unfold iterated, submittable in *.
    destruct (Command.Result c) as [img|] eqn:Hr; [destruct Hn; eauto|].
    destruct (Command.Transformation c) as [f|] eqn:Ht; [destruct Hn; eauto|].
    simpl. by rewrite list_insert_id, app_nil_r, world_eta.
Qed.

(** ** Splitting and trimming *)

Section Strings.
Import GoStrings.

Lemma Split_nonempty s sep : Split s sep ≠ [].
Proof.
  induction s as [|c s IH]; simpl; [done|].
  destruct (Ascii.eqb c sep); [done|]. by destruct (Split s sep).
Qed.

(** Joining the pieces with the separator gives the string back. *)
Lemma Join_Split s sep : Join (Split s sep) sep = s.
Proof.
  induction s as [|c s IH]; simpl; [done|].
  destruct (Ascii.eqb_spec c sep) as [->|Hne].
  - pose proof (Split_nonempty s sep).
    simpl. destruct (Split s sep) as [|h r]; [done|]. by rewrite IH.
  - pose proof (Split_nonempty s sep).
    destruct (Split s sep) as [|h r]; [done|].
    destruct r as [|h' r]; simpl in *; by rewrite <- IH.
Qed.

(** No piece contains the separator. *)
Lemma Split_pieces s sep : Forall (fun x => Count x sep = 0%nat) (Split s sep).
Proof.
  induction s as [|c s IH]; simpl; [by repeat constructor|].
  destruct (Ascii.eqb c sep) eqn:Hc.
  - by constructor.
  - destruct (Split s sep) as [|h r].
    + constructor; [simpl; by rewrite Hc|constructor].
    + inversion IH; subst. constructor; [|done]. simpl. by rewrite Hc.
Qed.

(** There is one piece more than there are separators. *)
Lemma length_Split s sep : length (Split s sep) = S (Count s sep).
Proof.
  induction s as [|c s IH]; simpl; [done|].
  destruct (Ascii.eqb c sep); simpl; [by rewrite IH|].
  pose proof (Split_nonempty s sep).
  destruct (Split s sep) as [|h r]; [done|]. by rewrite <- IH.
Qed.

Lemma append_nil_l (a : string) : "" ++ a = a.
Proof. reflexivity. Qed.

Lemma append_cons c (a b : string) : String c a ++ b = String c (a ++ b).
Proof. reflexivity. Qed.

Lemma dropPrefix_Some p s r : dropPrefix p s = Some r <-> s = p ++ r.
Proof.
  revert s. induction p as [|a p IH]; intros s; simpl.
  - rewrite append_nil_l. split; congruence.
  - rewrite append_cons. destruct s as [|b s]; [done|].
    destruct (Ascii.eqb_spec a b) as [->|Hne].
    + rewrite IH. split; congruence.
    + split; [done|]. congruence.
Qed.

Lemma stripSpace_Some pats s r :
  stripSpace pats s = Some r -> exists p, p ∈ pats /\ s = p ++ r.
Proof.
  induction pats as [|p pats IH]; simpl; [done|].
  destruct (dropPrefix p s) as [r'|] eqn:Hd.
  - intros [= ->]. apply dropPrefix_Some in Hd. exists p. split; [left|done].
  - intros H. destruct (IH H) as (p' & Hp' & Hs). exists p'. split; [by right|done].
Qed.

Lemma stripSpace_None pats s :
  stripSpace pats s = None <-> forall p r, p ∈ pats -> s ≠ p ++ r.
Proof.
  induction pats as [|p pats IH]; simpl.
  - split; [|done]. intros _ p r Hp. by apply elem_of_nil in Hp.
  - destruct (dropPrefix p s) as [r'|] eqn:Hd.
    + split; [done|]. intros H. apply dropPrefix_Some in Hd.
      destruct (H p r'); [left|done].
    + rewrite IH. split.
      * intros H p' r [->|Hp']%elem_of_cons; [|by apply H].
        intros Hs. apply dropPrefix_Some in Hs. congruence.
      * intros H p' r Hp'. apply H. by right.
Qed.

Lemma append_assoc (a b c : string) : (a ++ b) ++ c = a ++ b ++ c.
Proof.
  induction a as [|x a IH]; [done|]. by rewrite !append_cons, IH.
Qed.

Lemma append_nil_r (a : string) : a ++ "" = a.
Proof.
  induction a as [|x a IH]; [done|]. by rewrite append_cons, IH.
Qed.

Lemma length_append (a b : string) :
  String.length (a ++ b) = (String.length a + String.length b)%nat.
Proof.
  induction a as [|x a IH]; [done|]. rewrite append_cons. simpl. by rewrite IH.
Qed.

Lemma runOf_app pats a b : runOf pats a -> runOf pats b -> runOf pats (a ++ b).
Proof.
  induction 1 as [|p l Hp _ IH]; intros Hb; [done|].
  rewrite append_assoc. constructor; auto.
Qed.

Lemma trimLeftFuel_spec pats n s :
  Forall (fun p => p ≠ "") pats ->
  (String.length s <= n)%nat ->
  stripSpace pats (trimLeftFuel n pats s) = None
  /\ exists l, s = l ++ trimLeftFuel n pats s /\ runOf pats l.
Proof.
  intros Hne. revert s. induction n as [|n IH]; intros s Hlen; simpl.
  - destruct s; [|simpl in Hlen; lia]. split.
    + apply stripSpace_None. intros p r Hp Hs.
      destruct p; [|done]. rewrite Forall_forall in Hne. by apply (Hne "").
    + exists "". split; [done|constructor].
  - destruct (stripSpace pats s) as [rest|] eqn:Hs.
    + apply stripSpace_Some in Hs as (p & Hp & ->).
      assert (p ≠ "") by (rewrite Forall_forall in Hne; by apply Hne).
      destruct (IH rest) as (H1 & l & H2 & H3).
      { rewrite length_append in Hlen. destruct p; [done|]. simpl in Hlen. lia. }
      split; [done|]. exists (p ++ l). split.
      * rewrite append_assoc. by rewrite <- H2.
      * by constructor.
    + split; [done|]. exists "". split; [done|constructor].
Qed.

Lemma rev_string_app a b : rev_string (a ++ b) = rev_string b ++ rev_string a.
Proof.
  unfold rev_string.
  by rewrite list_ascii_of_string_app, rev_app_distr, string_of_list_ascii_app.
Qed.

Lemma rev_string_involutive a : rev_string (rev_string a) = a.
Proof.
  unfold rev_string.
  by rewrite list_ascii_of_string_of_list_ascii, rev_involutive,
    string_of_list_ascii_of_string.
Qed.

Lemma length_string_of_list_ascii l :
  String.length (string_of_list_ascii l) = length l.
Proof. induction l as [|c l IH]; simpl; [done|by rewrite IH]. Qed.

Lemma length_list_ascii_of_string a :
  length (list_ascii_of_string a) = String.length a.
Proof. induction a as [|c a IH]; simpl; [done|by rewrite IH]. Qed.

Lemma length_rev_string a : String.length (rev_string a) = String.length a.
Proof.
  unfold rev_string.
  by rewrite length_string_of_list_ascii, length_rev, length_list_ascii_of_string.
Qed.

Lemma runOf_rev pats l :
  runOf (List.map rev_string pats) l -> runOf pats (rev_string l).
Proof.
  induction 1 as [|p' l Hp' _ IH]; [constructor|].
  rewrite rev_string_app. apply runOf_app; [done|].
  apply list_elem_of_In, in_map_iff in Hp' as (p & <- & Hp).
  rewrite rev_string_involutive. rewrite <- (append_nil_r p).
  constructor; [by apply list_elem_of_In|constructor].
Qed.

Lemma spaces_nonempty : Forall (fun p => p ≠ "") spaces.
Proof. unfold spaces, unicodeSpaces. simpl. repeat constructor; done. Qed.

Lemma rev_spaces_nonempty :
  Forall (fun p => p ≠ "") (List.map rev_string spaces).
Proof. unfold spaces, unicodeSpaces. simpl. repeat constructor; done. Qed.

Lemma TrimLeft_spec s :
  ~ leadingSpace (TrimLeft s)
  /\ exists l, s = l ++ TrimLeft s /\ runOf spaces l.
Proof.
  destruct (trimLeftFuel_spec spaces (String.length s) s spaces_nonempty)
    as [H1 H2]; [done|].
  split; [|done]. intros (p & r & Hp & Hs).
  rewrite stripSpace_None in H1. by apply (H1 p r).
Qed.

Lemma TrimRight_spec s :
  ~ trailingSpace (TrimRight s)
  /\ exists r, s = TrimRight s ++ r /\ runOf spaces r.
Proof.
  destruct (trimLeftFuel_spec (List.map rev_string spaces) (String.length s)
              (rev_string s) rev_spaces_nonempty) as [H1 (l & H2 & H3)].
  { by rewrite length_rev_string. }
  fold (TrimRight s) in *. unfold TrimRight. split.
  - intros (p & r & Hp & Hs). rewrite stripSpace_None in H1.
    apply (H1 (rev_string p) (rev_string r)).
    + apply list_elem_of_In, in_map. by apply list_elem_of_In.
    + rewrite <- rev_string_app, <- Hs. by rewrite rev_string_involutive.
  - exists (rev_string l). split; [|by apply runOf_rev].
    rewrite <- rev_string_app, <- H2. by rewrite rev_string_involutive.
Qed.

(** [TrimSpace] removes a run of white-space runes at the front and one
    at the back, and what is left neither starts nor ends with one. *)
Lemma TrimSpace_spec s :
  ~ leadingSpace (TrimSpace s)
  /\ ~ trailingSpace (TrimSpace s)
  /\ exists l r, s = l ++ TrimSpace s ++ r /\ runOf spaces l /\ runOf spaces r.
Proof.
  destruct (TrimLeft_spec s) as [Hl (l & Hs & Hrl)].
  destruct (TrimRight_spec (TrimLeft s)) as [Hr (r & Ht & Hrr)].
  fold (TrimSpace s) in *. split; [|split; [done|]].
  - intros (p & x & Hp & Hx). apply Hl. exists p, (x ++ r).
    split; [done|]. rewrite Ht at 1. by rewrite Hx, append_assoc.
  - exists l, r. split; [|done]. by rewrite <- Ht.
Qed.

End Strings.

(** ** Supported formats *)

(** The loop that fills a slice of the length of [l] index by index. *)
Lemma fill_by_index {A B} (f : A -> B) (d : B) (l : list A) (filled : list B) :
  foldl (fun acc ia => <[ia.1 := f ia.2]> acc)
    (filled ++ replicate (length l) d)%list
    (imap (fun i a => (length filled + i, a)%nat) l)
  = (filled ++ List.map f l)%list.
Proof.
  revert filled. induction l as [|a l IH]; intros filled; simpl.
  - done.
  - rewrite Nat.add_0_r.
    replace (<[length filled := f a]> (filled ++ d :: replicate (length l) d)%list)
      with ((filled ++ [f a]) ++ replicate (length l) d)%list.
    2:{ rewrite insert_app_r_alt by done. rewrite Nat.sub_diag. simpl.
        by rewrite <- app_assoc. }
    rewrite (imap_ext _ (fun i x => (length (filled ++ [f a])%list + i, x)%nat)).
    2:{ intros i x _. simpl. rewrite length_app. simpl. f_equal. lia. }
    rewrite IH. by rewrite <- app_assoc.
Qed.

Lemma getSupportedFormats_map req :
  getSupportedFormats req =
  match values (Header req) "Accept" with
  | [] => []
  | first :: _ => List.map GoStrings.TrimSpace (GoStrings.Split first ",")
  end.
Proof.
  unfold getSupportedFormats.
  destruct (values (Header req) "Accept") as [|first rest]; [done|].
  simpl. apply (fill_by_index GoStrings.TrimSpace "" _ []).
Qed.

(** C7. The supported formats are the comma-separated entries of the
    Accept header, in the order of the header, each with the white space
    around it removed; without an Accept header the list is empty. *)
Theorem getSupportedFormats_accept (req : Request) :
  let accept := values (Header req) "Accept" in
  let formats := getSupportedFormats req in
  (accept = [] -> formats = [])
  /\ (forall first rest, accept = first :: rest ->
        let entries := GoStrings.Split first "," in
        GoStrings.Join entries "," = first
        /\ Forall (fun entry => GoStrings.Count entry "," = 0%nat) entries
        /\ length formats = length entries
        /\ forall (i : nat) entry, entries !! i = Some entry ->
             formats !! i = Some (GoStrings.TrimSpace entry)
             /\ ~ leadingSpace (GoStrings.TrimSpace entry)
             /\ ~ trailingSpace (GoStrings.TrimSpace entry)
             /\ exists l r, entry = l ++ GoStrings.TrimSpace entry ++ r
                            /\ runOf GoStrings.spaces l
                            /\ runOf GoStrings.spaces r).
Proof.
  intros accept formats. unfold formats, accept. clear accept formats.
  rewrite getSupportedFormats_map.
  split; [by intros ->|].
  intros first rest Heq. rewrite Heq. cbv zeta.
  split; [apply Join_Split|]. split; [apply Split_pieces|].
  split; [by rewrite length_map|].
  intros i entry Hi. split.
  - rewrite list_lookup_fmap_Some. eauto.
  - apply TrimSpace_spec.
Qed.

(** ** The hand-over of a command *)

Lemma closedUnder_reach r t hs h :
  hand0 ∈ hs -> closedUnder r t hs = true ->
  rtc (hstep r t) hand0 h -> h ∈ hs.
Proof.
  intros H0 Hc Hr. revert h Hr. apply rtc_ind_r; [done|].
  intros h1 h2 Hr Hs IH.
  unfold closedUnder in Hc. rewrite forallb_forall in Hc.
  specialize (Hc h1 (proj1 (list_elem_of_In _ _) IH)).
  rewrite forallb_forall in Hc.
  specialize (Hc h2 (proj1 (list_elem_of_In _ _) Hs)).
  by apply bool_decide_eq_true in Hc.
Qed.

(** Every state of the hand-over is among the explored ones. *)
Lemma explored_reach r t h : rtc (hstep r t) hand0 h -> h ∈ explored r t.
Proof.
  apply closedUnder_reach.
  - destruct r, t; apply (bool_decide_unpack _); by vm_compute.
  - destruct r, t; by vm_compute.
Qed.

Lemma explored_forall (P : hand -> bool) r t h :
  forallb P (explored r t) = true -> rtc (hstep r t) hand0 h -> P h = true.
Proof.
  intros HP Hr. rewrite forallb_forall in HP. apply HP.
  apply list_elem_of_In. by apply explored_reach.
Qed.





(** With neither a result nor a transformation the worker panics and the
    callback never runs. *)
Lemma handover_panic h :
  rtc (hstep false false) hand0 h ->
  sp h ≠ S40 /\ sp h ≠ Send /\ finished h = false /\ signals h = 0%nat.
Proof.
  intros Hr.
  assert (H : bool_decide (sp h ≠ S40 /\ sp h ≠ Send /\ finished h = false
                           /\ signals h = 0%nat) = true).
  { pose (P := fun x : hand =>
              bool_decide (sp x ≠ S40 /\ sp x ≠ Send /\ finished x = false
                           /\ signals x = 0%nat)).
    apply (explored_forall P false false h); [|done]. by vm_compute. }
  by apply bool_decide_eq_true in H.
Qed.




(** A transformation that fails, seen from the client: the handler
    returns and the response is a 500 with the message of the error. *)
Lemma transformUrl_error G req f cfg s l img q r' r e :
  getImgUrl req ≠ "" ->
  ResolveHideOnSaveData (SaveDataEnabled G) (Get (Header req) "Save-Data")
    (getQueryParam (Url req) "save-data") = false ->
  Service.Loader (srv s) = Some l ->
  Load l (getImgUrl req) (Ctx req) = (Some img, None) ->
  getQueue (srv s) = (Ret (Some q), r') ->
  f (Some (TransformationConfig.mk (Some img) (getSupportedFormats req)
             (getQuality G req) cfg)) = (r, Some e) ->
  (transformUrl G req (Some f) cfg s).1 = Ret tt
  /\ resp (transformUrl G req (Some f) cfg s).2 =
     Error ("Error transforming image: '" ++ e ++ "'") StatusInternalServerError
       (HeaderAdd "Vary"
          (if SaveDataEnabled G then "Accept, Save-Data" else "Accept") (resp s)).
Proof.
  intros Hurl Hhide Hl Hload Hq Hf.
  assert (Hlen : (String.length (getImgUrl req) =? 0)%nat = false).
  { destruct (getImgUrl req); [done|reflexivity]. }
  set (v := if SaveDataEnabled G then "Accept, Save-Data" else "Accept").
  set (s1 := {| srv := srv s; wld := wld s; resp := HeaderAdd "Vary" v (resp s) |}).
  assert (Ht : transformUrl G req (Some f) cfg s
               = loadAndExec G req (getImgUrl req) (Some f) cfg s1).
  { unfold transformUrl. rewrite Hlen. unfold ResolveHideOnSaveData in Hhide.
    unfold s1, v. destruct (SaveDataEnabled G); simpl in *; [|done].
    unfold mbind, M_bind, onResp. by rewrite Hhide. }
  assert (Hrun : exists w',
    transformUrl G req (Some f) cfg s =
    (Ret tt, {| srv := r'; wld := w';
                resp := Error ("Error transforming image: '" ++ e ++ "'")
                          StatusInternalServerError (HeaderAdd "Vary" v (resp s)) |})).
  { rewrite Ht, loadAndExec_closed. simpl. rewrite Hl, Hload.
    unfold mbind at 1, M_bind at 1, onStore at 1, alloc. simpl.
    set (c0 := Command.mk (Some f)
                 (Some (TransformationConfig.mk (Some img) (getSupportedFormats req)
                          (getQuality G req) cfg)) None false false None).
    match goal with |- context [execOp G ?op ?s2] =>
      rewrite (execOp_closed G op s2 c0 q r') end.
    - unfold afterWait. simpl.
      rewrite insert_app_r_alt by done. rewrite Nat.sub_diag. simpl.
      unfold iterated. simpl. rewrite Hf. simpl.
      unfold mbind at 1, M_bind at 1, onStore at 1, deref. simpl.
      rewrite list_lookup_middle by done. simpl.
      unfold mbind at 1, M_bind at 1, mret at 1, M_ret at 1.
      unfold mbind at 1, M_bind at 1, nonnil at 1, mret at 1, M_ret at 1. simpl.
      erewrite writeResult_error.
      + eexists. reflexivity.
      + simpl. by rewrite list_lookup_middle.
      + done.
    - simpl. by rewrite list_lookup_middle.
    - done.
    - left. by eexists. }
  destruct Hrun as [w' ->]. done.
Qed.

(** C3. An error of the transformation call is stored on the command, the
    worker returns from the iteration, and the submitter's callback
    renders the error as a 500 response; the commands that arrive on the
    lane afterwards run exactly as they would have without the failing
    command.  Seen from the client of [transformUrl]: the handler returns
    and the response is a 500 with the message of the error. *)
Theorem transformation_error_contained (G : Globals) (op1 : loc)
    (rest : list loc) (w : world) (c1 : Command.t) (f : Cmd)
    (r : option Image.t) (e : string) :
  heap w !! op1 = Some c1 ->
  Command.FinishedCond c1 = true ->
  Command.Result c1 = None ->
  Command.Transformation c1 = Some f ->
  f (Command.Config c1) = (r, Some e) ->
  op1 ∉ rest ->
  let first := Queue.iteration op1 w in
  let all := Queue.start (op1 :: rest) w in
  let alone := Queue.start rest w in
  first.1 = Ret tt
  /\ (exists c', heap first.2 !! op1 = Some c'
                 /\ Command.Err c' = Some e /\ Command.Result c' = r
                 /\ Command.Finished c' = true)
  /\ (forall s, wld s = first.2 ->
        writeResult G op1 s =
        (Ret tt, {| srv := srv s; wld := wld s;
                    resp := Error ("Error transforming image: '" ++ e ++ "'")
                              StatusInternalServerError (resp s) |})
        /\ (Status (resp s) = None ->
            Status (resp (writeResult G op1 s).2) = Some 500))
  /\ all.1 = alone.1
  /\ (forall op, op ∈ rest -> heap all.2 !! op = heap alone.2 !! op)
  /\ (exists evs, trace alone.2 = (trace w ++ evs)%list
                  /\ trace all.2 = (trace first.2 ++ evs)%list)
  /\ (forall req cfg s l img q r',
        getImgUrl req ≠ "" ->
        ResolveHideOnSaveData (SaveDataEnabled G) (Get (Header req) "Save-Data")
          (getQueryParam (Url req) "save-data") = false ->
        Service.Loader (srv s) = Some l ->
        Load l (getImgUrl req) (Ctx req) = (Some img, None) ->
        getQueue (srv s) = (Ret (Some q), r') ->
        f (Some (TransformationConfig.mk (Some img) (getSupportedFormats req)
                   (getQuality G req) cfg)) = (r, Some e) ->
        (transformUrl G req (Some f) cfg s).1 = Ret tt
        /\ resp (transformUrl G req (Some f) cfg s).2 =
           Error ("Error transforming image: '" ++ e ++ "'")
             StatusInternalServerError
             (HeaderAdd "Vary"
                (if SaveDataEnabled G then "Accept, Save-Data" else "Accept")
                (resp s))).
Proof.
  intros Hc Hcond Hr Ht Hf Hnin first all alone.
  assert (Hlt : (op1 < length (heap w))%nat) by (by eapply lookup_lt_Some).
  assert (Hit : iterated op1 c1 =
                (Ret tt, Command.set_finished true (Command.set_result (r, Some e) c1),
                 EvCall op1 :: completion op1)).
  { unfold iterated. by rewrite Hr, Ht, Hcond, Hf. }
  assert (Hfirst : first =
    (Ret tt, {| heap := <[op1 := Command.set_finished true
                               (Command.set_result (r, Some e) c1)]> (heap w);
                trace := (trace w ++ EvCall op1 :: completion op1)%list |})).
  { unfold first. rewrite (iteration_closed _ _ _ Hc). by rewrite Hit. }
  assert (Hc' : heap first.2 !! op1 =
                Some (Command.set_finished true (Command.set_result (r, Some e) c1))).
  { rewrite Hfirst. simpl. by rewrite list_lookup_insert_eq. }
  split; [by rewrite Hfirst|].
  split; [by eexists|].
  split.
  { intros s Hs. rewrite <- Hs in Hc'.
    rewrite (writeResult_error G op1 s _ e Hc') by done.
    split; [done|]. intros Hst. by apply Status_Error. }
  unfold all. rewrite start_cons. fold first. rewrite Hfirst. simpl.
  edestruct (start_agree rest) as (H1 & H2 & evs & H3 & H4); last first.
  { split; [exact H1|]. split; [exact H2|].
    split; [exists evs; split; [exact H4|exact H3]|].
    intros req cfg s l img q r'. apply transformUrl_error. }
  - intros op Hop. simpl. rewrite list_lookup_insert_ne; [done|].
    intros ->. done.
  - simpl. by rewrite length_insert.
Qed.

(** ** The response of a request *)

Lemma iterated_command op op' c : (iterated op c).1.2 = (iterated op' c).1.2.
Proof.
  unfold iterated.
  destruct (Command.Result c), (Command.Transformation c),
    (Command.FinishedCond c); reflexivity.
Qed.

Lemma hstate_eta s : {| srv := srv s; wld := wld s; resp := resp s |} = s.
Proof. by destruct s. Qed.

Lemma callback_rendered G op s c :
  heap (wld s) !! op = Some c ->
  (c' ← onStore (deref op);
   cfg ← nonnil (Command.Config c');
   _ ← nonnil (TransformationConfig.Src cfg);
   writeResult G op) s =
  ((rendered G c (resp s)).1,
   {| srv := srv s; wld := wld s; resp := (rendered G c (resp s)).2 |}).
Proof.
  intros Hc.
  unfold writeResult, addHeaders, rendered.
  unfold mbind, M_bind, onStore, nonnil, mret, M_ret, panic, onResp.
  rewrite (deref_Some _ _ _ Hc).
  destruct c as [t [[[src|] fmts q rc]|] [img|] fc fin [e|]]; simpl;
    rewrite ?(deref_Some _ _ _ Hc); simpl;
    try (by rewrite ?world_eta, ?hstate_eta).
  all: destruct (String.length (Image.MimeType img) =? 0)%nat; simpl;
    by rewrite ?world_eta.
Qed.

Lemma submit_closed G n c0 s :
  lanes n (srv s) -> submittable c0 ->
  (op ← onStore (alloc c0); execOp G op) s =
  ((rendered G (executed c0) (resp s)).1,
   submitted n c0 s (rendered G (executed c0) (resp s)).2).
Proof.
  intros Hl Hsub.
  unfold mbind at 1, M_bind at 1, onStore at 1, alloc. simpl.
  set (op := length (heap (wld s))).
  set (s2 := {| srv := srv s;
                wld := {| heap := (heap (wld s) ++ [c0])%list;
                          trace := trace (wld s) |};
                resp := resp s |}).
  assert (Hc : heap (wld s2) !! op = Some c0).
  { simpl. unfold op. by rewrite list_lookup_middle. }
  destruct (getQueue_lanes n (srv s) Hl) as [Hq _]. cbv zeta in Hq.
  rewrite (execOp_closed G op s2 c0 _ _ Hc Hq Hsub).
  erewrite callback_rendered.
  2:{ unfold afterWait. simpl. apply list_lookup_insert_eq.
      rewrite length_app. simpl. unfold op. lia. }
  unfold afterWait, submitted, executed. simpl. fold op.
  rewrite (iterated_command 0%nat op).
  f_equal. f_equal. f_equal.
  unfold op. replace (length (heap (wld s))) with (length (heap (wld s)) + 0)%nat at 1 by lia.
  by rewrite insert_app_r.
Qed.

Lemma transformUrl_closed G req t cfg s :
  transformUrl G req t cfg s =
  if (String.length (getImgUrl req) =? 0)%nat then
    (Ret tt, withResp (Error "url param is required" StatusBadRequest (resp s)) s)
  else if hidden G req then
    (Ret tt, withResp (Write (GoStrings.of_bytes emptyGif)
                         (HeaderAdd "Vary" (vary G) (resp s))) s)
  else
    loadAndExec G req (getImgUrl req) t cfg
      (withResp (HeaderAdd "Vary" (vary G) (resp s)) s).
Proof.
  unfold transformUrl, hidden, vary.
  destruct (String.length (getImgUrl req) =? 0)%nat; [done|].
  destruct (SaveDataEnabled G); simpl.
  - unfold mbind at 1, M_bind at 1, onResp at 1.
    by destruct (_ && _).
  - by unfold mbind at 1, M_bind at 1, onResp at 1.
Qed.

Lemma loadAndExec_lanes G n req url f cfg s l :
  lanes n (srv s) -> Service.Loader (srv s) = Some l ->
  loadAndExec G req url (Some f) cfg s =
  match Load l url (Ctx req) with
  | (_, Some e) =>
      (Ret tt, withResp (Error ("Error reading image: '" ++ e ++ "'")
                           StatusInternalServerError (resp s)) (loaded url s))
  | (src, None) =>
      let c := executed (built G req (Some f) src cfg) in
      ((rendered G c (resp s)).1,
       submitted n (built G req (Some f) src cfg) (loaded url s)
         (rendered G c (resp s)).2)
  end.
Proof.
  intros Hl HL. rewrite loadAndExec_closed, HL.
  destruct (Load l url (Ctx req)) as [src [e|]]; [done|].
  rewrite (submit_closed G n); [done|done|].
  left. by eexists.
Qed.

Lemma AsIs_closed G n req s l :
  lanes n (srv s) -> Service.Loader (srv s) = Some l ->
  AsIs G req s =
  if (String.length (getImgUrl req) =? 0)%nat then
    (Ret tt, withResp (Error "url param is required" StatusBadRequest (resp s)) s)
  else
    match Load l (getImgUrl req) (Ctx req) with
    | (_, Some e) =>
        (Ret tt, withResp (Error ("Error reading image: '" ++ e ++ "'")
                             StatusInternalServerError (resp s))
                   (loaded (getImgUrl req) s))
    | (None, None) => (Panic, loaded (getImgUrl req) s)
    | (Some img, None) =>
        let w1 := if (0 <? String.length (Image.MimeType img))%nat
                  then HeaderAdd "Content-Type" (Image.MimeType img) (resp s)
                  else resp s in
        let c := executed (passed (getImgUrl req) (Some img)) in
        ((rendered G c w1).1,
         submitted n (passed (getImgUrl req) (Some img))
           (loaded (getImgUrl req) s) (rendered G c w1).2)
    end.
Proof.
  intros Hl HL. unfold AsIs.
  destruct (String.length (getImgUrl req) =? 0)%nat; [done|].
  unfold mbind at 1, M_bind at 1. rewrite load_closed, HL.
  destruct (Load l (getImgUrl req) (Ctx req)) as [[img|] [e|]]; try done.
  unfold mbind at 1, M_bind at 1, nonnil at 1, mret at 1, M_ret at 1.
  unfold mbind at 1, M_bind at 1.
  destruct (0 <? String.length (Image.MimeType img))%nat.
  - unfold onResp at 1.
    rewrite (submit_closed G n); [done|done|]. right. by eexists.
  - unfold mret at 1, M_ret at 1.
    rewrite (submit_closed G n); [done|done|]. right. by eexists.
Qed.

Lemma Hdr_Write data w : Hdr (Write data w) = Hdr w.
Proof. unfold Write, WriteHeader. by destruct (Status w). Qed.


Lemma values_HeaderAdd k v w name :
  values (Hdr (HeaderAdd k v w)) name =
  if decide (k = name) then (values (Hdr w) name ++ [v])%list
  else values (Hdr w) name.
Proof. exact (values_Add (Hdr w) k v name). Qed.

Lemma executed_built G req f src cfg :
  executed (built G req (Some f) src cfg) =
  Command.mk (Some f) (Some (negotiated G req src cfg))
    (f (Some (negotiated G req src cfg))).1 true true
    (f (Some (negotiated G req src cfg))).2.
Proof. reflexivity. Qed.


Lemma length_nonzero (x : string) : x ≠ "" -> (String.length x =? 0)%nat = false.
Proof. by destruct x. Qed.


(** ** Failures of the loader *)

(** X1. An error of the loader is answered with a 500 that carries the
    message of the error, by [transformUrl] (after the Vary header) and by
    [AsIs]; an image returned together with the error is ignored.  No
    command is built and no lane is picked: the store and the cursor are
    as before. *)
Theorem load_error_answered (G : Globals) (req : Request) (t : option Cmd)
    (cfg : option ResizeConfig) (s : hstate) (l : Loader)
    (img : option Image.t) (e : string) :
  Service.Loader (srv s) = Some l ->
  getImgUrl req ≠ "" ->
  Load l (getImgUrl req) (Ctx req) = (img, Some e) ->
  let answer := Error ("Error reading image: '" ++ e ++ "'")
                  StatusInternalServerError in
  let after w := (Ret tt,
                  {| srv := srv s;
                     wld := {| heap := heap (wld s);
                               trace := (trace (wld s)
                                         ++ [EvLoad (getImgUrl req)])%list |};
                     resp := answer w |}) in
  (hidden G req = false ->
   transformUrl G req t cfg s = after (HeaderAdd "Vary" (vary G) (resp s)))
  /\ AsIs G req s = after (resp s)
  /\ forall w, Status w = None ->
       Status (answer w) = Some 500
       /\ Body (answer w) = Body w ++ "Error reading image: '" ++ e ++ "'"
                            ++ newline.
Proof.
  intros HL Hurl Hload answer after.
  apply length_nonzero in Hurl.
  split; [|split].
  - intros Hh. rewrite transformUrl_closed, Hurl, Hh, loadAndExec_closed.
    simpl. by rewrite HL, Hload.
  - unfold AsIs. rewrite Hurl.
    unfold mbind at 1, M_bind at 1. rewrite load_closed, HL, Hload. done.
  - intros w Hw. split; [by apply Status_Error|].
    unfold answer, Error. rewrite Body_Write. unfold WriteHeader. simpl.
    rewrite Hw. simpl. by rewrite <- !append_assoc.
Qed.



(** ** The answer to a request that succeeds *)



(** ** Requests do not interfere *)

Lemma method_closed m s :
  method m s =
  match Service.Processor (srv s) with
  | Some p => (Ret (Some (m p)), s)
  | None => (Panic, s)
  end.
Proof.
  unfold method, mbind, M_bind, theService, nonnil, mret, M_ret, panic.
  by destruct (Service.Processor (srv s)).
Qed.

Lemma transformUrl_answer G req f cfg n1 n2 s1 s2 :
  lanes n1 (srv s1) -> lanes n2 (srv s2) ->
  Service.Loader (srv s1) = Service.Loader (srv s2) ->
  resp s1 = resp s2 ->
  (transformUrl G req (Some f) cfg s1).1 = (transformUrl G req (Some f) cfg s2).1
  /\ resp (transformUrl G req (Some f) cfg s1).2
     = resp (transformUrl G req (Some f) cfg s2).2.
Proof.
  intros Hl1 Hl2 HL Hw. rewrite !transformUrl_closed, Hw.
  destruct (String.length (getImgUrl req) =? 0)%nat; [done|].
  destruct (hidden G req); [done|].
  destruct (Service.Loader (srv s1)) as [l|] eqn:HL1.
  - rewrite (loadAndExec_lanes G n1 _ _ _ _ _ l); [|done|done].
    rewrite (loadAndExec_lanes G n2 _ _ _ _ _ l); [|done|done].
    by destruct (Load l (getImgUrl req) (Ctx req)) as [src [e|]].
  - rewrite !loadAndExec_closed. simpl. by rewrite HL1, <- HL.
Qed.

Lemma AsIs_unloaded G req s :
  Service.Loader (srv s) = None ->
  AsIs G req s =
  if (String.length (getImgUrl req) =? 0)%nat then
    (Ret tt, withResp (Error "url param is required" StatusBadRequest (resp s)) s)
  else (Panic, s).
Proof.
  intros HL. unfold AsIs.
  destruct (String.length (getImgUrl req) =? 0)%nat; [done|].
  unfold mbind at 1, M_bind at 1. by rewrite load_closed, HL.
Qed.

(** X6. The answer to a request, that is whether the handler returns or
    panics and the response it leaves, depends on the request, the loader
    and the processor only: not on the commands in the store, on the
    events so far, or on the lane that the cursor picks. *)
Theorem requests_do_not_interfere (G : Globals) (req : Request) (n1 n2 : Z)
    (s1 s2 : hstate) (handler : Globals -> Request -> M hstate unit) :
  handler ∈ [OptimiseUrl; ResizeUrl; FitToSizeUrl; AsIs] ->
  lanes n1 (srv s1) -> lanes n2 (srv s2) ->
  Service.Loader (srv s1) = Service.Loader (srv s2) ->
  Service.Processor (srv s1) = Service.Processor (srv s2) ->
  resp s1 = resp s2 ->
  (handler G req s1).1 = (handler G req s2).1
  /\ resp (handler G req s1).2 = resp (handler G req s2).2.
Proof.
  intros Hh Hl1 Hl2 HL HP Hw.
  assert (Hm : forall m cfg,
    ((t ← method m; transformUrl G req t cfg) s1).1
    = ((t ← method m; transformUrl G req t cfg) s2).1
    /\ resp ((t ← method m; transformUrl G req t cfg) s1).2
       = resp ((t ← method m; transformUrl G req t cfg) s2).2).
  { intros m cfg. unfold mbind, M_bind. rewrite !method_closed, <- HP.
    destruct (Service.Processor (srv s1)) as [p|]; [|done].
    by apply (transformUrl_answer G req (m p) cfg n1 n2). }
  repeat (apply elem_of_cons in Hh as [->|Hh]).
  - apply Hm.
  - unfold ResizeUrl.
    destruct (String.length _ =? 0)%nat; [simpl; by rewrite Hw|].
    destruct (negb _); [simpl; by rewrite Hw|]. apply Hm.
  - unfold FitToSizeUrl.
    destruct (String.length _ =? 0)%nat; [simpl; by rewrite Hw|].
    destruct (negb _); [simpl; by rewrite Hw|]. apply Hm.
  - destruct (Service.Loader (srv s1)) as [l|] eqn:HL1.
    + rewrite (AsIs_closed G n1 req s1 l), (AsIs_closed G n2 req s2 l);
        [|done..]. rewrite Hw.
      destruct (String.length (getImgUrl req) =? 0)%nat; [done|].
      by destruct (Load l (getImgUrl req) (Ctx req)) as [[img|] [e|]].
    + rewrite !AsIs_unloaded by done. rewrite Hw.
      by destruct (String.length (getImgUrl req) =? 0)%nat.
  - by apply elem_of_nil in Hh.
Qed.

(** ** What reaches the processor *)

Lemma loadAndExec_sends G req url f cfg s0 s :
  heap (wld s) = heap (wld s0) ->
  trace (wld s) = trace (wld s0) ->
  submits (fun c => exists src, c = executed (built G req (Some f) src cfg)) s0
    (loadAndExec G req url (Some f) cfg s).
Proof.
  intros Hh Ht. rewrite loadAndExec_closed.
  destruct (Service.Loader (srv s)) as [l|].
  - destruct (Load l url (Ctx req)) as [srcImage [e|]].
    + apply (submits_quiet _ _ _ _ [EvLoad url]); [done|simpl; by rewrite Ht|].
      intros lane op. set_solver.
    + apply (alloc_execOp_submits _ _ _ _ _ url).
      * left. by eexists.
      * intros op. exists srcImage. apply iterated_command.
      * done.
      * simpl. by rewrite Ht.
  - by apply submits_unchanged.
Qed.

Lemma transformUrl_sends G req f cfg s :
  submits (fun c => exists src, c = executed (built G req (Some f) src cfg)) s
    (transformUrl G req (Some f) cfg s).
Proof.
  rewrite transformUrl_closed.
  destruct (String.length (getImgUrl req) =? 0)%nat; [by apply submits_unchanged|].
  destruct (hidden G req); [by apply submits_unchanged|].
  by apply loadAndExec_sends.
Qed.

Lemma method_transformUrl_sends G m req cfg s :
  submits (sent G req s m cfg) s ((t ← method m; transformUrl G req t cfg) s).
Proof.
  unfold mbind, M_bind. rewrite method_closed.
  destruct (Service.Processor (srv s)) as [p|] eqn:HP; [|by apply submits_unchanged].
  eapply submits_weaken; [|apply transformUrl_sends].
  intros c [src ->]. exists p, src. split; [done|]. apply executed_built.
Qed.

(** X7. The processor is called on validated requests only: every command
    that [ResizeUrl] sends to a lane carries the method [Resize] and the
    size of the request, which is not empty and matches the pattern of
    [ResizeUrl]; likewise for [FitToSizeUrl] with [FitToSize] and its
    pattern; the commands of [OptimiseUrl] carry [Optimise] and no resize
    configuration.  In each case the command carries the formats and the
    quality negotiated for the request, and its result and error are what
    the method returned on that configuration. *)
Theorem processor_sees_validated_request (G : Globals) (req : Request)
    (s : hstate) :
  let size := getQueryParam (Url req) "size" in
  submits (fun c => size ≠ "" /\ GoRegexp.MatchString sizeLoose size = true
                    /\ sent G req s Resize (Some {| Size := size |}) c)
    s (ResizeUrl G req s)
  /\ submits (fun c => size ≠ "" /\ GoRegexp.MatchString sizeStrict size = true
                       /\ sent G req s FitToSize (Some {| Size := size |}) c)
       s (FitToSizeUrl G req s)
  /\ submits (sent G req s Optimise None) s (OptimiseUrl G req s).
Proof.
  intros size. split; [|split].
  - unfold ResizeUrl. fold size.
    destruct (String.length size =? 0)%nat eqn:Hlen; [by apply submits_unchanged|].
    destruct (GoRegexp.MatchString sizeLoose size) eqn:Hm;
      [|by apply submits_unchanged].
    eapply submits_weaken; [|apply method_transformUrl_sends].
    intros c Hc. split; [|done]. intros Hs. by rewrite Hs in Hlen.
  - unfold FitToSizeUrl. fold size.
    destruct (String.length size =? 0)%nat eqn:Hlen; [by apply submits_unchanged|].
    destruct (GoRegexp.MatchString sizeStrict size) eqn:Hm;
      [|by apply submits_unchanged].
    eapply submits_weaken; [|apply method_transformUrl_sends].
    intros c Hc. split; [|done]. intros Hs. by rewrite Hs in Hlen.
  - apply method_transformUrl_sends.
Qed.

(** ** The Vary header *)

#[global] Instance onResponse_preorder R : PreOrder R -> PreOrder (onResponse R).
Proof.
  intros HR. split.
  - intros s. unfold onResponse. reflexivity.
  - intros s1 s2 s3. unfold onResponse. intros H1 H2. by etrans.
Qed.

#[global] Instance sameHeader_preorder k : PreOrder (sameHeader k).
Proof.
  split.
  - intros w. unfold sameHeader. reflexivity.
  - intros w1 w2 w3. unfold sameHeader. intros H1 H2. by rewrite H2.
Qed.

Section KeepsResponse.
Context (R : relation ResponseWriter) `{!PreOrder R}.

Lemma response_onStore {A} (m : M world A) : keeps (onResponse R) (onStore m).
Proof.
  intros s. unfold onResponse, onStore. destruct (m (wld s)). simpl. reflexivity.
Qed.

Lemma response_onWorker {A} (m : M world A) : keeps (onResponse R) (onWorker m).
Proof.
  intros s. unfold onResponse, onWorker. destruct (m (wld s)) as [[]?]; simpl;
    reflexivity.
Qed.

Lemma response_theService : keeps (onResponse R) theService.
Proof. intros s. unfold onResponse, theService. simpl. reflexivity. Qed.

Lemma response_nextQueue : keeps (onResponse R) nextQueue.
Proof.
  intros s. unfold onResponse, nextQueue. destruct (getQueue (srv s)). simpl.
  reflexivity.
Qed.

Lemma response_onResp f : (forall w, R w (f w)) -> keeps (onResponse R) (onResp f).
Proof. intros Hf s. unfold onResponse, onResp. simpl. apply Hf. Qed.
End KeepsResponse.

#[global] Hint Resolve response_onStore response_onWorker response_theService
  response_nextQueue : mrules.

Lemma sameHeader_HeaderAdd k k' v w : k' ≠ k -> sameHeader k w (HeaderAdd k' v w).
Proof.
  intros Hk. unfold sameHeader. rewrite values_HeaderAdd. by case_decide.
Qed.

Lemma sameHeader_Write k data w : sameHeader k w (Write data w).
Proof. unfold sameHeader. by rewrite Hdr_Write. Qed.

Lemma sameHeader_Error k msg code w :
  k ≠ "Content-Type" -> k ≠ "X-Content-Type-Options" ->
  sameHeader k w (Error msg code w).
Proof.
  intros H1 H2. unfold sameHeader, Error. rewrite Hdr_Write.
  unfold WriteHeader. simpl.
  destruct (Status w); simpl; unfold values, Set_;
    by rewrite !lookup_insert_ne.
Qed.

Lemma vary_HeaderAdd k v :
  k ≠ "Vary" -> keeps (onResponse (sameHeader "Vary")) (onResp (HeaderAdd k v)).
Proof.
  intros Hk. apply response_onResp.
  intros w. by apply sameHeader_HeaderAdd.
Qed.

Lemma vary_Write data :
  keeps (onResponse (sameHeader "Vary")) (onResp (Write data)).
Proof.
  apply response_onResp. intros w. apply sameHeader_Write.
Qed.

Lemma vary_Error msg code :
  keeps (onResponse (sameHeader "Vary")) (onResp (Error msg code)).
Proof.
  apply response_onResp. intros w. by apply sameHeader_Error.
Qed.

#[global] Hint Resolve vary_Write vary_Error : mrules.
#[global] Hint Extern 1 (keeps (onResponse (sameHeader "Vary"))
                           (onResp (HeaderAdd _ _))) =>
  apply vary_HeaderAdd; discriminate : mrules.

Lemma vary_addHeaders G image :
  keeps (onResponse (sameHeader "Vary")) (addHeaders G image).
Proof. unfold addHeaders. msteps. Qed.
#[global] Hint Resolve vary_addHeaders : mrules.

Lemma vary_writeResult G op :
  keeps (onResponse (sameHeader "Vary")) (writeResult G op).
Proof. unfold writeResult. msteps. Qed.
#[global] Hint Resolve vary_writeResult : mrules.

Lemma vary_execOp G op : keeps (onResponse (sameHeader "Vary")) (execOp G op).
Proof. unfold execOp, AddAndWait. msteps. Qed.
#[global] Hint Resolve vary_execOp : mrules.

Lemma vary_load src c : keeps (onResponse (sameHeader "Vary")) (load src c).
Proof. unfold load. msteps. Qed.
#[global] Hint Resolve vary_load : mrules.

Lemma vary_loadAndExec G req url t cfg :
  keeps (onResponse (sameHeader "Vary")) (loadAndExec G req url t cfg).
Proof. unfold loadAndExec. msteps. Qed.

Lemma vary_AsIs G req : keeps (onResponse (sameHeader "Vary")) (AsIs G req).
Proof. unfold AsIs. msteps. Qed.

(** X8. [transformUrl] adds one value to the Vary header of every response
    to a request with a locator: ["Accept, Save-Data"] when the save-data
    feature is enabled and ["Accept"] when it is not, whatever happens
    afterwards (the placeholder image, an error of the loader or of the
    transformation, a panic, the transformed image); for a request without
    locator it adds none, and [AsIs] never adds one. *)
Theorem transformUrl_vary (G : Globals) (req : Request) (t : option Cmd)
    (cfg : option ResizeConfig) (s : hstate) :
  values (Hdr (resp (transformUrl G req t cfg s).2)) "Vary"
  = (values (Hdr (resp s)) "Vary"
     ++ if decide (getImgUrl req = "") then []
        else if SaveDataEnabled G then ["Accept, Save-Data"]
        else ["Accept"])%list
  /\ values (Hdr (resp (AsIs G req s).2)) "Vary" = values (Hdr (resp s)) "Vary".
Proof.
  split; [|apply vary_AsIs].
  rewrite transformUrl_closed.
  destruct (decide (getImgUrl req = "")) as [Hu|Hu].
  - rewrite (proj2 (length_zero_iff _) Hu). unfold withResp. cbn [snd resp].
    rewrite app_nil_r. by apply (sameHeader_Error "Vary").
  - rewrite (length_nonzero _ Hu).
    destruct (hidden G req).
    + unfold withResp. cbn [snd resp].
      rewrite Hdr_Write, values_HeaderAdd. unfold vary.
      by destruct (SaveDataEnabled G).
    + rewrite (vary_loadAndExec G req (getImgUrl req) t cfg _).
      unfold withResp. cbn [resp]. rewrite values_HeaderAdd. unfold vary.
      by destruct (SaveDataEnabled G).
Qed.

(** ** The service that [NewService] builds *)

(** X9. [NewService] fails exactly for a number of processors that is not
    positive, with an error that names the number, and builds no service
    then.  For a positive number it returns, without error, a service with
    the given loader and processor, the cursor at 0 and that many queues:
    none of them is nil, and they are pairwise distinct. *)
Theorem NewService_builds (l : option Loader) (p : option Processor)
    (procNum : Z) :
  (procNum <= 0 ->
   NewService l p procNum =
   (None, Some ("procNum must be positive, but got [" ++ Itoa procNum ++ "]")))
  /\ (0 < procNum ->
      exists r, NewService l p procNum = (Some r, None)
        /\ Service.Loader r = l /\ Service.Processor r = p
        /\ Service.currProc r = 0
        /\ len (Service.Q r) = procNum
        /\ (forall i q, Service.Q r !! i = Some q -> q = Some (Queue.NewQueue i))
        /\ NoDup (Service.Q r)).
Proof.
  unfold NewService. split; intros Hn.
  - by destruct (Z.leb_spec procNum 0); [|lia].
  - destruct (Z.leb_spec procNum 0); [lia|].
    eexists. split; [done|]. simpl.
    destruct (NewService_queues (Z.to_nat procNum)
                (replicate (Z.to_nat procNum) None) 0) as [Hl Hi].
    { rewrite length_replicate. lia. }
    rewrite length_replicate in Hl. cbv zeta in Hl, Hi.
    set (q := foldl _ _ _) in *.
    assert (Hq : forall i x, q !! i = Some x -> x = Some (Queue.NewQueue i)).
    { intros i x Hx. pose proof (lookup_lt_Some _ _ _ Hx) as Hlt.
      rewrite Hi in Hx. rewrite decide_True in Hx by lia. congruence. }
    repeat split; [unfold len; lia|done|].
    apply NoDup_alt. intros i j x Hx Hj.
    apply Hq in Hx. apply Hq in Hj. subst x. by simplify_eq.
Qed.

(** ** The loop of the worker *)

Lemma start_app ops1 ops2 w :
  Queue.start (ops1 ++ ops2) w =
  match Queue.start ops1 w with
  | (Ret _, w1) => Queue.start ops2 w1
  | (Panic, w1) => (Panic, w1)
  | (Crash, w1) => (Crash, w1)
  | (Blocked, w1) => (Blocked, w1)
  end.
Proof.
  revert w. induction ops1 as [|op rest IH]; intros w; [done|].
  simpl app. rewrite !start_cons.
  destruct (Queue.iteration op w) as [[[]| | |] w1]; try done; apply IH.
Qed.

(** X10. The worker handles the commands of its lane one at a time, in the
    order in which they arrive: when the commands are distinct, each with
    a transformation or a result and with its condition variable, the
    worker returns from every iteration, the events of the lane are the
    events of the first command (the call, if there is no result yet, and
    then lock, set, unlock, signal), followed by those of the second, and
    so on, and every command is finished in the end; the commands that did
    not arrive are as they were. *)
Theorem start_fifo (ops : list loc) (w : world) :
  NoDup ops ->
  (forall op, op ∈ ops ->
     exists c, heap w !! op = Some c /\ submittable c
               /\ Command.FinishedCond c = true) ->
  let out := Queue.start ops w in
  out.1 = Ret tt
  /\ trace out.2 = (trace w ++ mjoin (block w <$> ops))%list
  /\ (forall op, op ∈ ops ->
        exists c', heap out.2 !! op = Some c' /\ Command.Finished c' = true)
  /\ (forall op, op ∉ ops -> heap out.2 !! op = heap w !! op).
Proof.
  intros Hnd Hops. cbv zeta.
  split; [|split; [|split]]; [| | |intros op Hop; by apply start_untouched].
  - revert w Hops. induction ops as [|op rest IH]; intros w Hops; [done|].
    apply NoDup_cons in Hnd as [Hnin Hnd].
    destruct (Hops op (list_elem_of_here _ _)) as (c & Hc & Hsub & Hcond).
    rewrite start_cons, (iteration_closed _ _ _ Hc).
    rewrite (proj2 (iterated_Ret op c) (conj Hsub Hcond)).
    apply IH; [done|]. intros op' Hop'. simpl.
    rewrite list_lookup_insert_ne by (intros ->; done).
    apply Hops. by right.
  - revert w Hops. induction ops as [|op rest IH]; intros w Hops.
    { simpl. by rewrite app_nil_r. }
    apply NoDup_cons in Hnd as [Hnin Hnd].
    destruct (Hops op (list_elem_of_here _ _)) as (c & Hc & Hsub & Hcond).
    rewrite start_cons, (iteration_closed _ _ _ Hc).
    rewrite (proj2 (iterated_Ret op c) (conj Hsub Hcond)).
    rewrite IH; [|done|].
    2:{ intros op' Hop'. simpl.
        rewrite list_lookup_insert_ne by (intros ->; done).
        apply Hops. by right. }
    simpl. rewrite <- app_assoc. f_equal. f_equal.
    + unfold block, iterated. rewrite Hc, Hcond.
      destruct Hsub as [[f Hf]|[img Hi]].
      * rewrite Hf. by destruct (Command.Result c).
      * by rewrite Hi.
    + f_equal. apply list_fmap_ext. intros i op' Hop'.
      unfold block. simpl. rewrite list_lookup_insert_ne; [done|].
      intros ->. apply Hnin. by eapply list_elem_of_lookup_2.
  - revert w Hops. induction ops as [|op rest IH]; intros w Hops op0 Hop0.
    { by apply elem_of_nil in Hop0. }
    apply NoDup_cons in Hnd as [Hnin Hnd].
    destruct (Hops op (list_elem_of_here _ _)) as (c & Hc & Hsub & Hcond).
    rewrite start_cons, (iteration_closed _ _ _ Hc).
    rewrite (proj2 (iterated_Ret op c) (conj Hsub Hcond)).
    set (w1 := {| heap := _; trace := _ |}).
    assert (Hops1 : forall op', op' ∈ rest ->
              exists c, heap w1 !! op' = Some c /\ submittable c
                        /\ Command.FinishedCond c = true).
    { intros op' Hop'. simpl.
      rewrite list_lookup_insert_ne by (intros ->; done).
      apply Hops. by right. }
    apply elem_of_cons in Hop0 as [->|Hin]; [|by apply IH].
    rewrite start_untouched by done. simpl.
    rewrite list_lookup_insert_eq by (by eapply lookup_lt_Some).
    eexists. split; [done|].
    by destruct (iterated_flags op c (proj2 (iterated_Ret op c) (conj Hsub Hcond))) as [? ?].
Qed.

(** X11. A command with neither a transformation nor a result stops the
    worker: the call of the nil function panics, the commands that arrived
    before it are done, and nothing is done for the commands behind it. *)
Theorem start_stops_at_panic (before after : list loc) (op : loc) (w : world)
    (c : Command.t) :
  (Queue.start before w).1 = Ret tt ->
  heap (Queue.start before w).2 !! op = Some c ->
  Command.Transformation c = None ->
  Command.Result c = None ->
  Queue.start (before ++ op :: after) w = (Panic, (Queue.start before w).2).
Proof.
  intros Hr Hc Ht Hres. rewrite start_app.
  destruct (Queue.start before w) as [r w1]. simpl in Hr, Hc. subst r.
  cbn [snd]. rewrite start_cons, (iteration_closed _ _ _ Hc).
  unfold iterated. rewrite Hres, Ht. simpl.
  rewrite app_nil_r, list_insert_id by done. by rewrite world_eta.
Qed.

(** X12. The worker tests [op.Result] only.  When a command arrives a second
    time with a result, it is not transformed again: the store stays as it
    is and the worker signals once more.  When the first call returned no
    image, the transformation is called again. *)
Theorem second_arrival (op : loc) (w : world) (c : Command.t) :
  heap w !! op = Some c ->
  submittable c ->
  Command.FinishedCond c = true ->
  let once := Queue.iteration op w in
  let twice := Queue.iteration op once.2 in
  exists c1,
    once.1 = Ret tt /\ twice.1 = Ret tt
    /\ heap once.2 !! op = Some c1
    /\ (is_Some (Command.Result c1) ->
        heap twice.2 = heap once.2
        /\ trace twice.2 = (trace once.2 ++ completion op)%list)
    /\ (Command.Result c1 = None ->
        exists f, Command.Transformation c = Some f
          /\ trace twice.2 = (trace once.2 ++ EvCall op :: completion op)%list
          /\ heap twice.2 !! op
             = Some (Command.set_result (f (Command.Config c)) c1)).
Proof.
  intros Hc Hsub Hcond. cbv zeta.
  assert (Hlt : (op < length (heap w))%nat) by (by eapply lookup_lt_Some).
  rewrite (iteration_closed _ _ _ Hc). simpl.
  set (c1 := (iterated op c).1.2).
  assert (Hc1 : <[op := c1]> (heap w) !! op = Some c1)
    by (by apply list_lookup_insert_eq).
  erewrite iteration_closed by (simpl; exact Hc1). simpl.
  exists c1. rewrite (proj2 (iterated_Ret op c) (conj Hsub Hcond)).
  destruct (iterated_flags op c (proj2 (iterated_Ret op c) (conj Hsub Hcond)))
    as (Hfin & Hfc & Ht1 & Hcfg1).
  fold c1 in Hfin, Hfc, Ht1, Hcfg1.
  assert (Hnone : Command.Result c1 = None ->
                  exists f, Command.Transformation c = Some f).
  { intros Hr1. destruct Hsub as [[f Hf]|Hi]; [by eexists|].
    unfold c1 in Hr1. rewrite (iterated_Result op c Hi) in Hr1.
    destruct Hi as [img Hi]. congruence. }
  split; [done|]. rewrite list_insert_insert_eq.
  clearbody c1. destruct c1 as [t1 cfg1 r1 fc1 fin1 e1]. simpl in *. subst.
  unfold iterated. simpl.
  destruct r1 as [img|]; simpl.
  - split; [done|]. split; [by apply list_lookup_insert_eq|].
    split; [done|]. intros [=].
  - destruct (Hnone eq_refl) as [f Hf]. rewrite Hf. simpl.
    split; [done|]. split; [by apply list_lookup_insert_eq|].
    split; [by intros [? ?]|]. intros _. exists f.
    split; [done|]. split; [done|]. by rewrite list_lookup_insert_eq.
Qed.

(** ** Edge cases of the Accept header *)

(** X13. When the request has an Accept header, the list of supported
    formats has one entry more than the first header line has commas:
    entries are trimmed but never dropped, so that an empty header value
    gives one empty entry, and further Accept lines are not read. *)
Theorem getSupportedFormats_length (req : Request) (first : string)
    (rest : list string) :
  values (Header req) "Accept" = first :: rest ->
  length (getSupportedFormats req) = S (GoStrings.Count first ",")
  /\ (first = "" -> getSupportedFormats req = [""])
  /\ forall req', values (Header req') "Accept" = [first] ->
       getSupportedFormats req' = getSupportedFormats req.
Proof.
  intros Ha. rewrite getSupportedFormats_map, Ha.
  split; [|split].
  - by rewrite length_map, length_Split.
  - by intros ->.
  - intros req' Ha'. by rewrite getSupportedFormats_map, Ha'.
Qed.

(** ** The hand-over: waiting *)

(** X14. No wake-up is lost.  In every interleaving of [AddAndWait] and the
    worker on a command with a result or a transformation: the submitter
    tests [op.Finished] and registers with the condition variable only
    while it holds the lock; while it is parked it is registered, and
    either it has been notified or the worker has not signalled yet; once
    it is woken [op.Finished] holds; and it is stuck in no state. *)
Theorem handover_no_lost_wakeup (r t : bool) (h : hand) :
  r || t = true ->
  rtc (hstep r t) hand0 h ->
  (sp h = S35 \/ sp h = S36add \/ sp h = S36unlock -> lock h = Submitter)
  /\ (sp h = S36park ->
      (notified h = true \/ (registered h = true /\ signals h = 0%nat
                             /\ wp h ≠ Wnext /\ wp h ≠ Wpanic)))
  /\ (sp h = S36lock -> finished h = true)
  /\ (sp h ≠ Send -> exists h', hstep r t h h').
Proof.
  intros Hrt Hr.
  pose (P := fun x : hand =>
    (if bool_decide (sp x ∈ [S35; S36add; S36unlock])
     then bool_decide (lock x = Submitter) else true)
    && (if bool_decide (sp x = S36park)
        then notified x
             || (registered x && bool_decide (signals x = 0%nat)
                 && negb (bool_decide (wp x = Wnext))
                 && negb (bool_decide (wp x = Wpanic)))
        else true)
    && (if bool_decide (sp x = S36lock) then finished x else true)
    && (if bool_decide (sp x = Send) then true
        else negb (bool_decide (nexts r t x = [])))).
  assert (H : P h = true).
  { apply (explored_forall P r t h); [|done].
    destruct r, t; try done; by vm_compute. }
  unfold P in H. repeat (apply andb_true_iff in H as [H ?]).
  split; [|split; [|split]].
  - intros Hsp. rewrite bool_decide_true in H.
    + by apply bool_decide_eq_true in H.
    + destruct Hsp as [Hs|[Hs|Hs]]; rewrite Hs; set_solver.
  - intros Hsp. rewrite bool_decide_true in H2 by done.
    apply orb_true_iff in H2 as [?|H2]; [by left|right].
    repeat (apply andb_true_iff in H2 as [H2 ?]).
    repeat match goal with
           | Hx : negb _ = true |- _ => apply negb_true_iff in Hx
           | Hx : bool_decide _ = true |- _ => apply bool_decide_eq_true in Hx
           | Hx : bool_decide _ = false |- _ => apply bool_decide_eq_false in Hx
           end.
    done.
  - intros Hsp. by rewrite bool_decide_true in H1 by done.
  - intros Hsp. rewrite bool_decide_false in H0 by done.
    apply negb_true_iff, bool_decide_eq_false in H0.
    unfold hstep. destruct (nexts r t h) as [|h' ?]; [done|].
    exists h'. by left.
Qed.

(** X15. On a command with neither a result nor a transformation the worker
    panics at the call, in every interleaving: the transformation is not
    called, [op.Finished] is never set and no signal is sent, the callback
    of the submitter never runs, and the hand-over ends, when no step is
    left, with the worker in its panic. *)
Theorem handover_nil_command (h : hand) :
  rtc (hstep false false) hand0 h ->
  called h = false /\ finished h = false /\ signals h = 0%nat
  /\ sp h ≠ S38 /\ sp h ≠ S40 /\ sp h ≠ Send
  /\ (nexts false false h = [] -> wp h = Wpanic).
Proof.
  intros Hr.
  pose (P := fun x : hand =>
    negb (called x) && negb (finished x) && bool_decide (signals x = 0%nat)
    && negb (bool_decide (sp x ∈ [S38; S40; Send]))
    && (if bool_decide (nexts false false x = [])
        then bool_decide (wp x = Wpanic) else true)).
  assert (H : P h = true).
  { apply (explored_forall P false false h); [|done]. by vm_compute. }
  unfold P in H. repeat (apply andb_true_iff in H as [H ?]).
  repeat match goal with
         | Hx : negb _ = true |- _ => apply negb_true_iff in Hx
         | Hx : bool_decide _ = true |- _ => apply bool_decide_eq_true in Hx
         | Hx : bool_decide _ = false |- _ => apply bool_decide_eq_false in Hx
         end.
  repeat split; try done.
  - intros Hs. apply H1. rewrite Hs. set_solver.
  - intros Hs. apply H1. rewrite Hs. set_solver.
  - intros Hs. apply H1. rewrite Hs. set_solver.
  - intros Hn. rewrite bool_decide_true in H0 by done.
    by apply bool_decide_eq_true in H0.
Qed.

(** ** The router *)

Lemma list_ascii_of_rev_string v :
  list_ascii_of_string (GoStrings.rev_string v)
  = List.rev (list_ascii_of_string v).
Proof.
  unfold GoStrings.rev_string. apply list_ascii_of_string_of_list_ascii.
Qed.

Lemma dotStar_rev v : GoMux.dotStar (GoStrings.rev_string v) = GoMux.dotStar v.
Proof.
  unfold GoMux.dotStar. rewrite list_ascii_of_rev_string.
  apply eq_true_iff_eq. rewrite !forallb_forall.
  split; intros H c Hc; apply H.
  - by apply (proj1 (in_rev _ _)).
  - by apply (proj2 (in_rev _ _)).
Qed.

Lemma append_inv_head (p a b : string) : p ++ a = p ++ b -> a = b.
Proof.
  induction p as [|c p IH]; [by rewrite !append_nil_l|].
  rewrite !append_cons. intros [=]. by apply IH.
Qed.

Lemma append_inv_tail (a b s : string) : a ++ s = b ++ s -> a = b.
Proof.
  intros H. apply (f_equal GoStrings.rev_string) in H.
  rewrite !rev_string_app in H. apply append_inv_head in H.
  apply (f_equal GoStrings.rev_string) in H.
  by rewrite !rev_string_involutive in H.
Qed.

(** Two strings that start a common string: one starts the other. *)
Lemma append_comparable (x y a b : string) :
  x ++ a = y ++ b ->
  is_Some (GoStrings.dropPrefix x y) \/ is_Some (GoStrings.dropPrefix y x).
Proof.
  revert y. induction x as [|c x IH]; intros y H.
  { left. by eexists. }
  destruct y as [|d y]; [right; by eexists|].
  rewrite !append_cons in H. injection H as -> H.
  simpl. rewrite Ascii.eqb_refl. by apply IH.
Qed.

Lemma matchTemplate_Some r path v :
  GoMux.matchTemplate r path = Some v <->
  path = GoMux.before r ++ v ++ GoMux.after r /\ GoMux.dotStar v = true.
Proof.
  unfold GoMux.matchTemplate. split.
  - destruct (GoStrings.dropPrefix (GoMux.before r) path) as [rest|] eqn:H1;
      [|done].
    apply dropPrefix_Some in H1.
    destruct (GoStrings.dropPrefix _ (GoStrings.rev_string rest)) as [v0|] eqn:H2;
      [|done].
    apply dropPrefix_Some in H2.
    destruct (GoMux.dotStar v0) eqn:H3; [|done]. intros [= <-].
    split; [|by rewrite dotStar_rev].
    rewrite H1. f_equal. rewrite <- (rev_string_involutive rest), H2.
    by rewrite rev_string_app, rev_string_involutive.
  - intros [-> Hv].
    rewrite (proj2 (dropPrefix_Some _ _ (v ++ GoMux.after r)) eq_refl).
    rewrite rev_string_app.
    rewrite (proj2 (dropPrefix_Some _ _ (GoStrings.rev_string v)) eq_refl).
    by rewrite dotStar_rev, Hv, rev_string_involutive.
Qed.

(** Two routes with the same text before the variable, neither of whose
    texts after it ends with the other, match no common path. *)
Lemma matchTemplate_apart r1 r2 path v1 :
  GoMux.before r1 = GoMux.before r2 ->
  GoStrings.dropPrefix (GoStrings.rev_string (GoMux.after r1))
    (GoStrings.rev_string (GoMux.after r2)) = None ->
  GoStrings.dropPrefix (GoStrings.rev_string (GoMux.after r2))
    (GoStrings.rev_string (GoMux.after r1)) = None ->
  GoMux.matchTemplate r1 path = Some v1 ->
  GoMux.matchTemplate r2 path = None.
Proof.
  intros Hb H12 H21 H1.
  destruct (GoMux.matchTemplate r2 path) as [v2|] eqn:H2; [|done].
  apply matchTemplate_Some in H1 as [H1 _].
  apply matchTemplate_Some in H2 as [H2 _].
  rewrite H1, Hb in H2. apply append_inv_head in H2.
  apply (f_equal GoStrings.rev_string) in H2.
  rewrite !rev_string_app in H2.
  apply append_comparable in H2 as [[? H]|[? H]]; congruence.
Qed.

(** Rewrites the routes that cannot match because the route of [H] does. *)
Ltac apart H :=
  repeat match goal with
         | |- context [GoMux.matchTemplate ?r2 ?p] =>
             lazymatch type of H with
             | GoMux.matchTemplate ?r1 _ = _ =>
                 rewrite (matchTemplate_apart r1 r2 p _ eq_refl eq_refl eq_refl H)
             end
         end.

(** X16. The router serves a path [/img/<locator>/<operation>], for the
    operations resize, fit, asis and optimise, by the handler of the
    operation, on the request with the route variable [imgUrl] set to the
    locator as it stands in the path: not cleaned, possibly empty and
    possibly with slashes or with the name of an operation in it, but
    without line feed.  Every other path is answered 404 by the router,
    and no handler runs. *)
Theorem ServeHTTP_dispatch (G : Globals) (path : string) (req : Request) :
  let served (operation : string) (h : Request -> M hstate unit) :=
    forall locator,
      path = "/img/" ++ locator ++ operation ->
      GoMux.dotStar locator = true ->
      GoMux.ServeHTTP (GetRouter G) path req = h (withVar locator req) in
  served "/resize" (ResizeUrl G)
  /\ served "/fit" (FitToSizeUrl G)
  /\ served "/asis" (AsIs G)
  /\ served "/optimise" (OptimiseUrl G)
  /\ ((forall operation locator,
         operation ∈ ["/resize"; "/fit"; "/asis"; "/optimise"] ->
         path = "/img/" ++ locator ++ operation ->
         GoMux.dotStar locator = false) ->
      GoMux.ServeHTTP (GetRouter G) path req
      = onResp (Error "404 page not found" 404)).
Proof.
  cbv zeta.
  assert (Hm : forall r v, path = "/img/" ++ v ++ GoMux.after r ->
            GoMux.before r = "/img/" -> GoMux.dotStar v = true ->
            GoMux.matchTemplate r path = Some v).
  { intros r v Hp Hb Hv. apply matchTemplate_Some. by rewrite Hb. }
  repeat split.
  - intros v Hp Hv. unfold GoMux.ServeHTTP, GetRouter, GoMux.Match.
    by rewrite (Hm (GoMux.Build_Route _ _ "/resize" _) v Hp eq_refl Hv).
  - intros v Hp Hv. unfold GoMux.ServeHTTP, GetRouter, GoMux.Match.
    pose proof (Hm (GoMux.Build_Route "/img/" "imgUrl" "/fit" (FitToSizeUrl G))
                  v Hp eq_refl Hv) as H.
    apart H. by rewrite H.
  - intros v Hp Hv. unfold GoMux.ServeHTTP, GetRouter, GoMux.Match.
    pose proof (Hm (GoMux.Build_Route "/img/" "imgUrl" "/asis" (AsIs G))
                  v Hp eq_refl Hv) as H.
    apart H. by rewrite H.
  - intros v Hp Hv. unfold GoMux.ServeHTTP, GetRouter, GoMux.Match.
    pose proof (Hm (GoMux.Build_Route "/img/" "imgUrl" "/optimise" (OptimiseUrl G))
                  v Hp eq_refl Hv) as H.
    apart H. by rewrite H.
  - intros Hnone. unfold GoMux.ServeHTTP, GetRouter, GoMux.Match.
    assert (Hn : forall r, GoMux.before r = "/img/" ->
              GoMux.after r ∈ ["/resize"; "/fit"; "/asis"; "/optimise"] ->
              GoMux.matchTemplate r path = None).
    { intros r Hb Ha. destruct (GoMux.matchTemplate r path) as [v|] eqn:H; [|done].
      apply matchTemplate_Some in H as [H Hv]. rewrite Hb in H.
      rewrite (Hnone _ _ Ha H) in Hv. done. }
    rewrite !Hn; [done|done|set_solver..].
Qed.

(** ** Every request is answered *)









(** ** The service between requests *)

#[global] Instance onService_preorder R : PreOrder R -> PreOrder (onService R).
Proof.
  intros HR. split.
  - intros s. unfold onService. reflexivity.
  - intros s1 s2 s3. unfold onService. intros H1 H2. by etrans.
Qed.

#[global] Instance sameLanes_preorder n : PreOrder (sameLanes n).
Proof.
  split.
  - intros r. by unfold sameLanes.
  - intros r1 r2 r3 (H1 & H2 & H3 & H4) (H1' & H2' & H3' & H4').
    unfold sameLanes. rewrite H1', H2', H3'.
    split; [done|]. split; [done|]. split; [done|].
    intros Hl. by apply H4', H4.
Qed.

Section KeepsService.
Context (R : relation Service.t) `{!PreOrder R}.

Lemma service_onStore {A} (m : M world A) : keeps (onService R) (onStore m).
Proof.
  intros s. unfold onService, onStore. destruct (m (wld s)). simpl. reflexivity.
Qed.

Lemma service_onWorker {A} (m : M world A) : keeps (onService R) (onWorker m).
Proof.
  intros s. unfold onService, onWorker. destruct (m (wld s)) as [[]?]; simpl;
    reflexivity.
Qed.

Lemma service_theService : keeps (onService R) theService.
Proof. intros s. unfold onService, theService. simpl. reflexivity. Qed.

Lemma service_onResp f : keeps (onService R) (onResp f).
Proof. intros s. unfold onService, onResp. simpl. reflexivity. Qed.
End KeepsService.

#[global] Hint Resolve service_onStore service_onWorker service_theService
  service_onResp : mrules.

Lemma lanes_nextQueue n : keeps (onService (sameLanes n)) nextQueue.
Proof.
  intros s. unfold onService, nextQueue.
  destruct (getQueue (srv s)) as [q r'] eqn:Hq. simpl.
  assert (Hr : r' = (getQueue (srv s)).2) by (by rewrite Hq).
  assert (Hs : exists c, (getQueue (srv s)).2 = Service.set_currProc c (srv s)).
  { unfold getQueue. repeat case_match; by eexists. }
  destruct Hs as [c Hc]. rewrite Hr, Hc.
  split; [done|]. split; [done|]. split; [done|].
  intros Hl. destruct (getQueue_lanes n (srv s) Hl) as [He Hl'].
  cbv zeta in He, Hl'. rewrite He in Hc. simpl in Hc. by rewrite <- Hc.
Qed.
#[global] Hint Resolve lanes_nextQueue : mrules.

Lemma lanes_execOp G n op : keeps (onService (sameLanes n)) (execOp G op).
Proof. unfold execOp, AddAndWait, writeResult, addHeaders. msteps. Qed.
#[global] Hint Resolve lanes_execOp : mrules.

Lemma lanes_transformUrl G n req t cfg :
  keeps (onService (sameLanes n)) (transformUrl G req t cfg).
Proof. unfold transformUrl, loadAndExec, load. msteps. Qed.
#[global] Hint Resolve lanes_transformUrl : mrules.

(** X18. A handler leaves the service as [NewService] built it, up to the
    cursor: the loader, the processor and the queues are the same after
    every request, whether it was answered, panicked or took the process
    down, and the cursor is still the index of a queue; so the service is
    ready for the next request. *)
Theorem handlers_keep_service (G : Globals) (n : Z) (req : Request) (s : hstate)
    (handler : Globals -> Request -> M hstate unit) :
  handler ∈ [OptimiseUrl; ResizeUrl; FitToSizeUrl; AsIs] ->
  let after := srv (handler G req s).2 in
  Service.Loader after = Service.Loader (srv s)
  /\ Service.Processor after = Service.Processor (srv s)
  /\ Service.Q after = Service.Q (srv s)
  /\ (lanes n (srv s) ->
      len (Service.Q after) = n /\ 0 <= Service.currProc after < n).
Proof.
  intros Hh. cbv zeta.
  assert (Hk : keeps (onService (sameLanes n)) (handler G req)).
  { repeat (apply elem_of_cons in Hh as [->|Hh]).
    - unfold OptimiseUrl, method. msteps.
    - unfold ResizeUrl, method. msteps.
    - unfold FitToSizeUrl, method. msteps.
    - unfold AsIs, load. msteps.
    - by apply elem_of_nil in Hh. }
  destruct (Hk s) as (H1 & H2 & H3 & H4).
  split; [done|]. split; [done|]. split; [done|].
  intros Hl. destruct (H4 Hl) as [_ Hlen _ Hcur]. done.
Qed.

(** ** The router and the handlers together *)


(** ** Concrete runs *)

(** C1 on three lanes: the fourth submission of a schedule gets lane 1. *)
Lemma getQueue_round_robin_witness :
  3 < 2 ^ 63
  /\ NewService None None 3 = (Some threeLanes, None)
  /\ (run [Submit 0; Work 0; Submit 1; Submit 2; Work 2; Submit 0]%nat exState).1
       !! 3%nat = Some (Some (Queue.NewQueue 1)).
Proof.
  split; [lia|]. split; [reflexivity|].
  destruct (getQueue_round_robin None None 3 threeLanes exState []
              [Submit 0; Work 0; Submit 1; Submit 2; Work 2; Submit 0]%nat
              ltac:(lia) eq_refl eq_refl) as (_ & _ & _ & _ & H & _).
  apply (H 4%nat). vm_compute. lia.
Defined.


(** C3 on the store: the failing command first, the succeeding one after
    it on the same lane. *)
Lemma transformation_error_contained_witness :
  heap exWorld !! 0%nat = Some (exCommand (Some failingCmd) None)
  /\ failingCmd None = (None, Some "exit status 1")
  /\ (Queue.start [0; 1]%nat exWorld).1 = (Queue.start [1]%nat exWorld).1
  /\ (Queue.start [1]%nat exWorld).1 = Ret tt
  /\ Command.Result <$> (heap (Queue.start [0; 1]%nat exWorld).2 !! 1%nat)
     = Some (Some exImage).
Proof.
  split; [reflexivity|]. split; [reflexivity|].
  assert (Hnin : 0%nat ∉ [1%nat]).
  { apply not_elem_of_cons. split; [lia|apply not_elem_of_nil]. }
  destruct (transformation_error_contained exGlobals 0%nat [1%nat] exWorld
              (exCommand (Some failingCmd) None) failingCmd None "exit status 1"
              eq_refl eq_refl eq_refl eq_refl eq_refl Hnin)
    as (_ & _ & _ & H1 & H2 & _).
  split; [exact H1|]. split; [reflexivity|].
  refine (eq_trans (f_equal (fmap Command.Result)
                      (H2 1%nat (list_elem_of_here _ _))) _).
  reflexivity.
Defined.

(** C5 on a request that asks to hide the image. *)
Lemma hide_short_circuit_witness :
  getImgUrl (saveDataRequest "on" "hide") ≠ ""
  /\ hideFired exState
       (transformUrl exGlobals (saveDataRequest "on" "hide") (Some okCmd) None exState).
Proof.
  assert (H : getImgUrl (saveDataRequest "on" "hide") ≠ "")
    by (vm_compute; discriminate).
  split; [exact H|].
  apply (proj1 (hide_short_circuit exGlobals (saveDataRequest "on" "hide")
                  (Some okCmd) None exState H)).
  repeat split; reflexivity.
Defined.

(** C6 on a fit request with two sizes. *)
Lemma size_validation_witness :
  answeredError StatusBadRequest exState (FitToSizeUrl exGlobals twoSizes exState)
  /\ Status (resp (FitToSizeUrl exGlobals twoSizes exState).2) = Some 400.
Proof.
  destruct (size_validation exGlobals twoSizes exState)
    as (_ & _ & _ & H1 & H2 & _).
  split; [exact H1|]. apply (H2 _ H1). reflexivity.
Defined.

(** C7 on a request with three Accept entries. *)
Lemma getSupportedFormats_accept_witness :
  values (Header acceptRequest) "Accept" = ["image/avif, image/webp ,*/*"]
  /\ getSupportedFormats acceptRequest !! 1%nat = Some "image/webp".
Proof.
  assert (H : values (Header acceptRequest) "Accept"
              = ["image/avif, image/webp ,*/*"]) by reflexivity.
  split; [exact H|].
  destruct (proj2 (getSupportedFormats_accept acceptRequest) _ _ H)
    as (_ & _ & _ & H4).
  apply (H4 1%nat " image/webp "). reflexivity.
Defined.

(** C8 on a scheme-relative locator and on an empty one. *)
Lemma getImgUrl_locator_witness :
  GoStrings.HasPrefix (default "" (Vars relativeRequest !! "imgUrl")) "//" = true
  /\ values (Header relativeRequest) "X-Forwarded-Proto" = ["https"]
  /\ getImgUrl relativeRequest = "https://site/a.png"
  /\ answeredError StatusBadRequest exState (AsIs exGlobals noLocatorRequest exState).
Proof.
  split; [reflexivity|]. split; [reflexivity|].
  split.
  - apply (proj1 (getImgUrl_locator exGlobals relativeRequest) "https");
      reflexivity.
  - apply (proj2 (proj2 (getImgUrl_locator exGlobals noLocatorRequest)) eq_refl
             exState None None).
Defined.

(** C10 on the succeeding command of the store. *)
Lemma submitted_commands_runnable_witness :
  heap exWorld !! 1%nat = Some (exCommand (Some okCmd) None)
  /\ submittable (exCommand (Some okCmd) None)
  /\ (Queue.iteration 1%nat exWorld).1 = Ret tt.
Proof.
  assert (Hsub : submittable (exCommand (Some okCmd) None))
    by (left; exists okCmd; reflexivity).
  split; [reflexivity|]. split; [exact Hsub|].
  destruct (submitted_commands_runnable exGlobals acceptRequest exState)
    as (_ & _ & _ & _ & _ & _ & H).
  apply (proj1 (H 1%nat exWorld (exCommand (Some okCmd) None) eq_refl eq_refl)).
  exact Hsub.
Defined.

(** ** Concrete requests *)

Lemma lanes_loadedService (c : Z) :
  0 <= c < 3 -> lanes 3 (Service.set_currProc c loadedService).
Proof.
  intros Hc. split; [lia|reflexivity| |exact Hc].
  intros [|[|[|i]]] Hi; try reflexivity. simpl in Hi. lia.
Defined.

(** The loader fails for an unknown locator. *)
Lemma load_error_answered_witness :
  Load exLoader "http://site/b.png" (ctx 0) = (None, Some "not found")
  /\ (AsIs exGlobals (locatorRequest "http://site/b.png") loadedState).1 = Ret tt
  /\ Status (resp (AsIs exGlobals (locatorRequest "http://site/b.png")
                     loadedState).2) = Some 500
  /\ srv (AsIs exGlobals (locatorRequest "http://site/b.png") loadedState).2
     = loadedService.
Proof.
  split; [reflexivity|].
  assert (Hu : getImgUrl (locatorRequest "http://site/b.png") ≠ "")
    by (vm_compute; discriminate).
  destruct (load_error_answered exGlobals (locatorRequest "http://site/b.png")
              None None loadedState exLoader None "not found"
              eq_refl Hu eq_refl) as (_ & H & Hs).
  rewrite H. split; [reflexivity|]. split; [|reflexivity].
  apply (proj1 (Hs newResponse eq_refl)).
Defined.





(** The same request now and later. *)
Lemma requests_do_not_interfere_witness :
  resp (ResizeUrl exGlobals acceptRequest loadedState).2
  = resp (ResizeUrl exGlobals acceptRequest laterState).2.
Proof.
  apply (requests_do_not_interfere exGlobals acceptRequest 3 3 loadedState
           laterState ResizeUrl).
  - apply list_elem_of_further, list_elem_of_here.
  - exact (lanes_loadedService 0 ltac:(lia)).
  - exact (lanes_loadedService 2 ltac:(lia)).
  - reflexivity.
  - reflexivity.
  - reflexivity.
Defined.

(** What a resize request sends to its lane. *)
Lemma processor_sees_validated_request_witness :
  getQueryParam (Url acceptRequest) "size" = "50x"
  /\ submits (fun c => "50x" ≠ "" /\ GoRegexp.MatchString sizeLoose "50x" = true
                       /\ sent exGlobals acceptRequest loadedState Resize
                            (Some {| Size := "50x" |}) c)
       loadedState (ResizeUrl exGlobals acceptRequest loadedState).
Proof.
  split; [reflexivity|].
  exact (proj1 (processor_sees_validated_request exGlobals acceptRequest
                  loadedState)).
Defined.

(** The Vary header of a request with the save-data feature enabled. *)
Lemma transformUrl_vary_witness :
  values (Hdr (resp (transformUrl exGlobals acceptRequest (Some okCmd) None
                       loadedState).2)) "Vary" = ["Accept, Save-Data"].
Proof.
  exact (proj1 (transformUrl_vary exGlobals acceptRequest (Some okCmd) None
                  loadedState)).
Defined.

(** No processors, and three. *)
Lemma NewService_builds_witness :
  NewService None None 0
  = (None, Some "procNum must be positive, but got [0]")
  /\ exists r, NewService None None 3 = (Some r, None) /\ NoDup (Service.Q r).
Proof.
  split.
  - apply (proj1 (NewService_builds None None 0)). lia.
  - destruct (proj2 (NewService_builds None None 3) ltac:(lia))
      as (r & H1 & _ & _ & _ & _ & _ & H7).
    exists r. split; [exact H1|exact H7].
Defined.

(** Two commands on a lane. *)
Lemma start_fifo_witness :
  (Queue.start [1; 2]%nat exWorld).1 = Ret tt
  /\ trace (Queue.start [1; 2]%nat exWorld).2
     = [EvCall 1%nat; EvLock 1%nat; EvSetFinished 1%nat; EvUnlock 1%nat;
        EvSignal 1%nat;
        EvLock 2%nat; EvSetFinished 2%nat; EvUnlock 2%nat; EvSignal 2%nat].
Proof.
  assert (Hnd : NoDup [1; 2]%nat).
  { apply NoDup_cons. split; [|apply NoDup_singleton].
    intros H. apply list_elem_of_singleton in H. discriminate. }
  assert (Hops : forall op, op ∈ [1; 2]%nat ->
            exists c, heap exWorld !! op = Some c /\ submittable c
                      /\ Command.FinishedCond c = true).
  { intros op Hop. apply elem_of_cons in Hop as [->|Hop].
    - eexists. split; [reflexivity|]. split; [|reflexivity].
      left. eexists. reflexivity.
    - apply list_elem_of_singleton in Hop as ->.
      eexists. split; [reflexivity|]. split; [|reflexivity].
      right. eexists. reflexivity. }
  destruct (start_fifo [1; 2]%nat exWorld Hnd Hops) as (H1 & H2 & _).
  split; [exact H1|]. rewrite H2. reflexivity.
Defined.

(** A command with neither transformation nor result between two others. *)
Lemma start_stops_at_panic_witness :
  heap nilWorld !! 1%nat = Some (exCommand None None)
  /\ (Queue.start [0; 1; 2]%nat nilWorld).1 = Panic
  /\ heap (Queue.start [0; 1; 2]%nat nilWorld).2 !! 2%nat
     = Some (exCommand (Some okCmd) None).
Proof.
  split; [reflexivity|].
  pose proof (start_stops_at_panic [0%nat] [2%nat] 1%nat nilWorld
                (exCommand None None) eq_refl eq_refl eq_refl eq_refl) as H.
  split; [exact (f_equal fst H)|].
  exact (f_equal (fun out : res unit * world => heap out.2 !! 2%nat) H).
Defined.

(** The failing command arrives twice. *)
Lemma second_arrival_witness :
  heap exWorld !! 0%nat = Some (exCommand (Some failingCmd) None)
  /\ trace (Queue.iteration 0%nat (Queue.iteration 0%nat exWorld).2).2
     = (trace (Queue.iteration 0%nat exWorld).2
        ++ EvCall 0%nat :: completion 0%nat)%list.
Proof.
  split; [reflexivity|].
  destruct (second_arrival 0%nat exWorld (exCommand (Some failingCmd) None)
              eq_refl (or_introl (ex_intro _ failingCmd eq_refl)) eq_refl)
    as (c1 & _ & _ & Hc1 & _ & H).
  injection Hc1 as <-.
  destruct (H eq_refl) as (f & _ & Ht & _). exact Ht.
Defined.

(** Three entries for two commas. *)
Lemma getSupportedFormats_length_witness :
  values (Header acceptRequest) "Accept" = ["image/avif, image/webp ,*/*"]
  /\ length (getSupportedFormats acceptRequest) = 3%nat.
Proof.
  split; [reflexivity|].
  apply (proj1 (getSupportedFormats_length acceptRequest
                  "image/avif, image/webp ,*/*" [] eq_refl)).
Defined.

(** The hand-over before its first step. *)
Lemma handover_no_lost_wakeup_witness :
  exists h', hstep false true hand0 h'.
Proof.
  destruct (handover_no_lost_wakeup false true hand0 eq_refl (rtc_refl _ _))
    as (_ & _ & _ & H).
  apply H. discriminate.
Defined.

(** A command with neither result nor transformation, once it is sent. *)
Lemma handover_nil_command_witness :
  rendezvous hand0 = Some {| sp := S34; wp := W18; lock := Free;
                             registered := false; notified := false;
                             called := false; finished := false;
                             signals := 0 |}
  /\ forall h, rendezvous hand0 = Some h -> finished h = false.
Proof.
  split; [reflexivity|]. intros h Hh. injection Hh as <-.
  refine (proj1 (proj2 (handover_nil_command _ _))).
  apply rtc_once. exact (list_elem_of_here _ _).
Defined.

(** A resize request through the router. *)
Lemma ServeHTTP_dispatch_witness :
  GoMux.dotStar "http://site/a.png" = true
  /\ GoMux.ServeHTTP (GetRouter exGlobals) "/img/http://site/a.png/resize"
       twoSizes
     = ResizeUrl exGlobals (withVar "http://site/a.png" twoSizes).
Proof.
  split; [reflexivity|].
  apply (proj1 (ServeHTTP_dispatch exGlobals "/img/http://site/a.png/resize"
                  twoSizes) "http://site/a.png"); reflexivity.
Defined.


(** The service after a request. *)
Lemma handlers_keep_service_witness :
  lanes 3 (srv loadedState)
  /\ 0 <= Service.currProc (srv (ResizeUrl exGlobals acceptRequest loadedState).2)
       < 3.
Proof.
  split; [exact (lanes_loadedService 0 ltac:(lia))|].
  destruct (handlers_keep_service exGlobals 3 acceptRequest loadedState ResizeUrl)
    as (_ & _ & _ & H).
  - apply list_elem_of_further, list_elem_of_here.
  - exact (proj2 (H (lanes_loadedService 0 ltac:(lia)))).
Defined.

